(** * The Stream Deck scaffold: key renderer and example action

    A shallow embedding of [scaffold/src/utils/button-renderer.ts]
    ([escapeXml]) and of [scaffold/src/actions/example-action.ts] (the
    polling action with its per-instance timer table), together with the
    properties of the lifecycle controller that they are meant to have. *)

From Stdlib Require Import ZArith Lia List Ascii String.
From stdpp Require Import base gmap strings list.

(* ===================================================================== *)
(** * Part I: XML escaping ([button-renderer.ts]) *)
(* ===================================================================== *)

Module Renderer.

(** The double quote, written by its code: a literal would need a doubled
    quote inside the string. *)
Definition dquote : ascii := "034"%char.
Definition squote : ascii := "'"%char.
Definition amp : ascii := "&"%char.
Definition lt : ascii := "<"%char.
Definition gt : ascii := ">"%char.

(** [text.replace(/c/g, r)] for a one-character pattern [c] and a
    replacement [r] that holds no [$]: every occurrence of [c], from left to
    right, is replaced by [r]; the replacement is not rescanned. The five
    characters that [escapeXml] looks for are ASCII; any other character of
    the text is copied as it is. *)
Fixpoint replaceAll (c : ascii) (r : string) (text : string) : string :=
  match text with
  | EmptyString => EmptyString
  | String a rest =>
      if Ascii.eqb a c then r +:+ replaceAll c r rest
      else String a (replaceAll c r rest)
  end.

(** [escapeXml]: the five replacements, in the order of the source. *)
Definition escapeXml (text : string) : string :=
  replaceAll squote "&apos;"
    (replaceAll dquote "&quot;"
      (replaceAll gt "&gt;"
        (replaceAll lt "&lt;"
          (replaceAll amp "&amp;" text)))).

(** The entities that [escapeXml] can produce. *)
Definition entities : list string :=
  ["&amp;"; "&lt;"; "&gt;"; "&quot;"; "&apos;"].

(** What one character becomes: the one-pass view of [escapeXml]. *)
Definition escapeChar (a : ascii) : string :=
  if Ascii.eqb a amp then "&amp;"
  else if Ascii.eqb a lt then "&lt;"
  else if Ascii.eqb a gt then "&gt;"
  else if Ascii.eqb a dquote then "&quot;"
  else if Ascii.eqb a squote then "&apos;"
  else String a EmptyString.

Fixpoint escapeEach (text : string) : string :=
  match text with
  | EmptyString => EmptyString
  | String a rest => escapeChar a +:+ escapeEach rest
  end.

(** The suffix of [s] that starts at index [i]. *)
Fixpoint dropString (i : nat) (s : string) : string :=
  match i, s with
  | O, _ => s
  | S _, EmptyString => EmptyString
  | S i', String _ rest => dropString i' rest
  end.

(** [startsAt p s i]: the string [p] occurs in [s] at index [i]. *)
Definition startsAt (p s : string) (i : nat) : bool :=
  String.prefix p (dropString i s).

(** The characters that must not survive in an SVG text node. *)
Definition isRaw (a : ascii) : bool :=
  Ascii.eqb a lt || Ascii.eqb a gt || Ascii.eqb a dquote || Ascii.eqb a squote.

(** What holds of the character [a] at index [i] of an escaped text. *)
Definition safeAt (out : string) (i : nat) (a : ascii) : Prop :=
  isRaw a = false /\
  (a = amp -> exists e, In e entities /\ startsAt e out i = true).

End Renderer.

(* ===================================================================== *)
(** * Part II: the example action ([example-action.ts]) *)
(* ===================================================================== *)

Module Action.

(** ** Data ([types.ts]) *)

(** [JsonValue], for the settings keys the action does not read. *)
#[warnings="-register-all"]
Inductive JsonValue : Type :=
| JNull
| JBool (b : bool)
| JNumber (n : Z)
| JString (s : string)
| JArray (items : list JsonValue)
| JObject (fields : list (string * JsonValue)).

(** The per-action settings: [resource?: string], [refreshInterval?:
    number] (whole seconds here) and the index signature. An absent key is
    [None]. *)
Record Settings : Type := mkSettings {
  resource : option string;
  refreshInterval : option Z;
  otherKeys : gmap string JsonValue
}.

Record GlobalSettings : Type := mkGlobalSettings {
  apiToken : option string;
  otherGlobals : gmap string JsonValue
}.

(** The part of an event the handlers read: [ev.action.id] and
    [ev.payload.settings]. [ev.action.setImage] and [ev.action.setTitle]
    address the action [ev.action.id]. *)
Record Event : Type := mkEvent {
  actionId : string;
  payloadSettings : Settings
}.

(** A thrown value: an [Error] with its message, or anything else. *)
Inductive JsError : Type :=
| ErrorObject (message : string)
| OtherValue.

Inductive Outcome (R : Type) : Type :=
| Resolved (r : R)
| Rejected (e : JsError).
Arguments Resolved {R} r.
Arguments Rejected {R} e.

(** ** Key images

    An [Image] is a call to one of the four renderers of
    [button-renderer.ts], with its arguments. A renderer ends with
    [encodeURIComponent(svg)], which throws a [URIError] on a text it
    cannot encode: the call is evaluated, and may throw, where the handler
    passes it to [setImage]. [exec] below takes every render call to
    return; [execR] and [stepR] of Part III evaluate it. *)
Record KeyImageOptions : Type := mkKeyImageOptions {
  line1 : option string;
  line2 : string;
  line3 : option string;
  accentColor : string
}.

Inductive Image : Type :=
| renderLoadingImage
| renderUnconfiguredImage
| renderErrorImage (message : string)
| renderKeyImage (options : KeyImageOptions).

(** The calls to the host that the action awaits. *)
Inductive DisplayCall : Type :=
| SetImage (id : string) (image : Image)
| SetTitle (id : string) (title : string).

Inductive Call : Type :=
| CallDisplay (c : DisplayCall)
| CallGetGlobalSettings.

(** ** The state the handlers mutate

    [timers] is the action's [Map<string, Timer>]; [intervals] is the
    runtime's table of intervals that are still active, each with the event
    its callback [() => this.refresh(ev)] closes over and the delay
    argument, in milliseconds, that [setInterval] was called with (the
    period the runtime gives the timer is [runtimeDelay] of it);
    [nextTimer] is the next handle [setInterval] returns. *)
Record Interval : Type := mkInterval {
  callbackEvent : Event;
  delayMs : Z
}.

Record Heap : Type := mkHeap {
  timers : gmap string positive;
  intervals : gmap positive Interval;
  nextTimer : positive
}.

Definition emptyHeap : Heap := mkHeap ∅ ∅ 1%positive.

(** ** The monad of an [async] method

    A computation returns, throws, reads or writes the heap, or awaits a
    call to the host; an [await] is where the method is suspended. The
    only promises the methods await are those of [setImage], [setTitle]
    and [getGlobalSettings], and that of [this.refresh(ev)], which is the
    sequence of the former: [await this.refresh(ev)] is the cycle followed
    by the rest of the caller. *)
Inductive M (A : Type) : Type :=
| Ret (a : A)
| Throw (e : JsError)
| GetHeap (k : Heap -> M A)
| PutHeap (h : Heap) (k : M A)
| AwaitDisplay (c : DisplayCall) (k : Outcome unit -> M A)
| AwaitGlobal (k : Outcome GlobalSettings -> M A).
Arguments Ret {A} a.
Arguments Throw {A} e.
Arguments GetHeap {A} k.
Arguments PutHeap {A} h k.
Arguments AwaitDisplay {A} c k.
Arguments AwaitGlobal {A} k.

Fixpoint bind {A B : Type} (m : M A) (f : A -> M B) : M B :=
  match m with
  | Ret a => f a
  | Throw e => Throw e
  | GetHeap k => GetHeap (fun h => bind (k h) f)
  | PutHeap h k => PutHeap h (bind k f)
  | AwaitDisplay c k => AwaitDisplay c (fun o => bind (k o) f)
  | AwaitGlobal k => AwaitGlobal (fun o => bind (k o) f)
  end.

(** [try { body } catch (error) { handler }]. *)
Fixpoint tryCatch {A : Type} (body : M A) (handler : JsError -> M A) : M A :=
  match body with
  | Ret a => Ret a
  | Throw e => handler e
  | GetHeap k => GetHeap (fun h => tryCatch (k h) handler)
  | PutHeap h k => PutHeap h (tryCatch k handler)
  | AwaitDisplay c k => AwaitDisplay c (fun o => tryCatch (k o) handler)
  | AwaitGlobal k => AwaitGlobal (fun o => tryCatch (k o) handler)
  end.

Declare Scope action_scope.
Delimit Scope action_scope with action.
Notation "x <- m ;; k" := (bind m (fun x => k))
  (at level 100, m at next level, right associativity) : action_scope.
Notation "m ;;; k" := (bind m (fun _ => k))
  (at level 100, right associativity) : action_scope.
Local Open Scope action_scope.

(** [await p]: the value of a fulfilled promise, a throw on a rejected one. *)
Definition settle {R : Type} (o : Outcome R) : M R :=
  match o with
  | Resolved r => Ret r
  | Rejected e => Throw e
  end.

Definition setImage (id : string) (image : Image) : M unit :=
  AwaitDisplay (SetImage id image) settle.

Definition setTitle (id : string) (title : string) : M unit :=
  AwaitDisplay (SetTitle id title) settle.

Definition getGlobalSettings : M GlobalSettings :=
  AwaitGlobal settle.

(** The timer table and the runtime's timers. A handle is an object of
    the runtime and is always truthy: [if (timer) clearInterval(timer)]
    clears whenever the table has an entry. Clearing a handle that is no
    longer active does nothing. *)
Definition timersGet (id : string) : M (option positive) :=
  GetHeap (fun h => Ret (timers h !! id)).

Definition timersSet (id : string) (t : positive) : M unit :=
  GetHeap (fun h =>
    PutHeap (mkHeap (<[id := t]> (timers h)) (intervals h) (nextTimer h))
            (Ret tt)).

Definition timersDelete (id : string) : M unit :=
  GetHeap (fun h =>
    PutHeap (mkHeap (delete id (timers h)) (intervals h) (nextTimer h))
            (Ret tt)).



(** [setInterval(() => this.refresh(ev), delay)]: the interval is recorded
    with the delay it was called with; the runtime fires it every
    [runtimeDelay delay] milliseconds. *)
Definition setInterval (ev : Event) (delay : Z) : M positive :=
  GetHeap (fun h =>
    PutHeap (mkHeap (timers h)
                    (<[nextTimer h := mkInterval ev delay]> (intervals h))
                    (Pos.succ (nextTimer h)))
            (Ret (nextTimer h))).

Definition clearInterval (t : positive) : M unit :=
  GetHeap (fun h =>
    PutHeap (mkHeap (timers h) (delete t (intervals h)) (nextTimer h))
            (Ret tt)).

(** Truthiness of an optional string: [undefined] and the empty string are
    falsy. *)
Definition truthy (s : option string) : bool :=
  match s with
  | Some (String _ _) => true
  | _ => false
  end.

(** [error instanceof Error ? error.message : "Error"]. *)
Definition errorMessage (error : JsError) : string :=
  match error with
  | ErrorObject message => message
  | OtherValue => "Error"
  end.

Definition DEFAULT_REFRESH_INTERVAL : Z := 300.

(** ** The methods of the action class *)

Definition dataImage (settings : Settings) : Image :=
  renderKeyImage
    (mkKeyImageOptions (Some "Label") "Value" (resource settings) "#58a6ff").

(** The part of the [try] block after the global settings are read. *)
Definition refreshRender (ev : Event) (globalSettings : GlobalSettings) : M unit :=
  if negb (truthy (apiToken globalSettings)) then
    setImage (actionId ev) (renderErrorImage "No Token") ;;;
    setTitle (actionId ev) EmptyString
  else
    setImage (actionId ev) (dataImage (payloadSettings ev)) ;;;
    setTitle (actionId ev) EmptyString.

Definition refreshBody (ev : Event) : M unit :=
  globalSettings <- getGlobalSettings ;;
  refreshRender ev globalSettings.

Definition refreshCatch (ev : Event) (error : JsError) : M unit :=
  let message := errorMessage error in
  setImage (actionId ev) (renderErrorImage message) ;;;
  setTitle (actionId ev) EmptyString.

Definition refresh (ev : Event) : M unit :=
  setImage (actionId ev) renderLoadingImage ;;;
  setTitle (actionId ev) EmptyString ;;;
  tryCatch (refreshBody ev) (refreshCatch ev).

(** The last statements of [onWillAppear] and of [onDidReceiveSettings],
    which are the same: the interval with its default, [setInterval], then
    [this.timers.set]. *)
Definition startTimer (ev : Event) : M unit :=
  let interval :=
    match refreshInterval (payloadSettings ev) with
    | Some n => n
    | None => DEFAULT_REFRESH_INTERVAL
    end in
  t <- setInterval ev (interval * 1000) ;;
  timersSet (actionId ev) t.

Definition onWillAppear (ev : Event) : M unit :=
  let settings := payloadSettings ev in
  if negb (truthy (resource settings)) then
    setImage (actionId ev) renderUnconfiguredImage ;;;
    setTitle (actionId ev) EmptyString
  else
    refresh ev ;;;
    startTimer ev.

Definition onWillDisappear (ev : Event) : M unit :=
  timer <- timersGet (actionId ev) ;;
  match timer with
  | Some t => clearInterval t
  | None => Ret tt
  end ;;;
  timersDelete (actionId ev).

Definition onKeyDown (ev : Event) : M unit :=
  if negb (truthy (resource (payloadSettings ev))) then Ret tt
  else refresh ev.

Definition onDidReceiveSettings (ev : Event) : M unit :=
  existingTimer <- timersGet (actionId ev) ;;
  match existingTimer with
  | Some t => clearInterval t
  | None => Ret tt
  end ;;;
  let settings := payloadSettings ev in
  if negb (truthy (resource settings)) then
    setImage (actionId ev) renderUnconfiguredImage ;;;
    setTitle (actionId ev) EmptyString ;;;
    timersDelete (actionId ev)
  else
    refresh ev ;;;
    startTimer ev.

(** ** Running a handler to completion

    The environment answers every awaited call at once: the call issued
    when [n] calls have been issued before gets the outcome the
    environment has for position [n]. The trace lists the calls issued. *)
Record Env : Type := mkEnv {
  displayOutcome : nat -> DisplayCall -> Outcome unit;
  globalOutcome : nat -> Outcome GlobalSettings
}.

Inductive Completion (A : Type) : Type :=
| Normal (a : A)
| Thrown (e : JsError).
Arguments Normal {A} a.
Arguments Thrown {A} e.

Record Result (A : Type) : Type := mkResult {
  finalHeap : Heap;
  finalTrace : list Call;
  completion : Completion A
}.
Arguments mkResult {A} _ _ _.
Arguments finalHeap {A} _.
Arguments finalTrace {A} _.
Arguments completion {A} _.

Fixpoint exec {A : Type} (m : M A) (env : Env) (h : Heap) (tr : list Call)
  : Result A :=
  match m with
  | Ret a => mkResult h tr (Normal a)
  | Throw e => mkResult h tr (Thrown e)
  | GetHeap k => exec (k h) env h tr
  | PutHeap h' k => exec k env h' tr
  | AwaitDisplay c k =>
      exec (k (displayOutcome env (length tr) c)) env h (tr ++ [CallDisplay c])
  | AwaitGlobal k =>
      exec (k (globalOutcome env (length tr))) env h (tr ++ [CallGetGlobalSettings])
  end.

(** The notifications of the host. *)
Inductive HostEvent : Type :=
| WillAppear (ev : Event)
| WillDisappear (ev : Event)
| KeyDown (ev : Event)
| DidReceiveSettings (ev : Event).

Definition dispatch (e : HostEvent) : M unit :=
  match e with
  | WillAppear ev => onWillAppear ev
  | WillDisappear ev => onWillDisappear ev
  | KeyDown ev => onKeyDown ev
  | DidReceiveSettings ev => onDidReceiveSettings ev
  end.

Definition eventOf (e : HostEvent) : Event :=
  match e with
  | WillAppear ev | WillDisappear ev | KeyDown ev | DidReceiveSettings ev => ev
  end.

(** A sequence of notifications, each handled to completion before the
    next one; a handler that throws does not stop the plugin. *)
Fixpoint execAll (es : list HostEvent) (env : Env) (h : Heap) (tr : list Call)
  : Heap * list Call :=
  match es with
  | [] => (h, tr)
  | e :: rest =>
      let r := exec (dispatch e) env h tr in
      execAll rest env (finalHeap r) (finalTrace r)
  end.

(** ** Observations *)

(** The intervals still active whose callback refreshes the action [id]. *)
Definition activeTimers (id : string) (h : Heap) : list positive :=
  (filter (fun p : positive * Interval => actionId (callbackEvent p.2) = id)
          (map_to_list (intervals h))).*1.

(** Every active interval is the one the table holds for its key. *)
Definition tracked (h : Heap) : Prop :=
  forall t itv,
    intervals h !! t = Some itv ->
    timers h !! actionId (callbackEvent itv) = Some t.

(** The host announces a key only when the table has no timer for it. *)
Fixpoint appearsOnce (es : list HostEvent) (env : Env) (h : Heap)
    (tr : list Call) : Prop :=
  match es with
  | [] => True
  | e :: rest =>
      match e with
      | WillAppear ev => timers h !! actionId ev = None
      | _ => True
      end /\
      appearsOnce rest env (finalHeap (exec (dispatch e) env h tr))
                  (finalTrace (exec (dispatch e) env h tr))
  end.

(** A refresh cycle starts with the loading image. *)
Definition isLoadingFor (id : string) (c : Call) : bool :=
  match c with
  | CallDisplay (SetImage id' renderLoadingImage) => String.eqb id' id
  | _ => false
  end.

(** The refresh cycles started for [id] in a trace. *)
Definition refreshCount (id : string) (tr : list Call) : nat :=
  length (List.filter (isLoadingFor id) tr).

(** The image on the key of [id] after a trace: the last one the action
    has set. *)
Fixpoint lastImage (id : string) (tr : list Call) : option Image :=
  match tr with
  | [] => None
  | c :: rest =>
      match lastImage id rest with
      | Some i => Some i
      | None =>
          match c with
          | CallDisplay (SetImage id' i) =>
              if String.eqb id' id then Some i else None
          | _ => None
          end
      end
  end.

Definition isErrorImage (i : Image) : bool :=
  match i with
  | renderErrorImage _ => true
  | _ => false
  end.

Definition isDataImage (i : Image) : bool :=
  match i with
  | renderKeyImage _ => true
  | _ => false
  end.

(** The settings of the timer that the table holds for [id]: those of the
    event that its callback closes over. The action keeps no other copy of
    the settings. An active interval of the key that the table no longer
    holds is not seen here; [settingsPolled] sees it. *)
Definition settingsInUse (id : string) (h : Heap) : option Settings :=
  t ← timers h !! id;
  itv ← intervals h !! t;
  Some (payloadSettings (callbackEvent itv)).




(** ** Interleaved execution

    The plugin runs on one thread: a handler or a timer callback runs
    until its next [await], where it is suspended with the call it issued;
    the host answers later, and other handlers run in between. *)
Inductive Suspended : Type :=
| OnDisplay (c : DisplayCall) (k : Outcome unit -> M unit)
| OnGlobal (k : Outcome GlobalSettings -> M unit).

Inductive Paused : Type :=
| Finished (c : Completion unit)
| Waiting (s : Suspended).

Fixpoint advance (m : M unit) (h : Heap) : Heap * Paused :=
  match m with
  | Ret a => (h, Finished (Normal a))
  | Throw e => (h, Finished (Thrown e))
  | GetHeap k => advance (k h) h
  | PutHeap h' k => advance k h'
  | AwaitDisplay c k => (h, Waiting (OnDisplay c k))
  | AwaitGlobal k => (h, Waiting (OnGlobal k))
  end.

Definition callOf (s : Suspended) : Call :=
  match s with
  | OnDisplay c _ => CallDisplay c
  | OnGlobal _ => CallGetGlobalSettings
  end.

(** [log] lists the calls issued, each with the task that issued it;
    [tasks] holds the suspended tasks; [rejections] the handlers that
    ended by a throw. *)
Record World : Type := mkWorld {
  heap : Heap;
  log : list (nat * Call);
  tasks : gmap nat Suspended;
  nextTask : nat;
  rejections : list (nat * JsError)
}.

Definition emptyWorld : World := mkWorld emptyHeap [] ∅ 0 [].

Definition resume (tid : nat) (m : M unit) (w : World) : World :=
  match advance m (heap w) with
  | (h', Finished (Normal _)) =>
      mkWorld h' (log w) (delete tid (tasks w)) (nextTask w) (rejections w)
  | (h', Finished (Thrown e)) =>
      mkWorld h' (log w) (delete tid (tasks w)) (nextTask w)
              (rejections w ++ [(tid, e)])
  | (h', Waiting s) =>
      mkWorld h' (log w ++ [(tid, callOf s)]) (<[tid := s]> (tasks w))
              (nextTask w) (rejections w)
  end.

Definition spawn (m : M unit) (w : World) : World :=
  resume (nextTask w) m
    (mkWorld (heap w) (log w) (tasks w) (S (nextTask w)) (rejections w)).

Inductive Label : Type :=
| Deliver (e : HostEvent)
| Fire (t : positive)
| SettleDisplay (tid : nat) (o : Outcome unit)
| SettleGlobal (tid : nat) (o : Outcome GlobalSettings).

Definition step (l : Label) (w : World) : option World :=
  match l with
  | Deliver e => Some (spawn (dispatch e) w)
  | Fire t =>
      match intervals (heap w) !! t with
      | Some itv => Some (spawn (refresh (callbackEvent itv)) w)
      | None => None
      end
  | SettleDisplay tid o =>
      match tasks w !! tid with
      | Some (OnDisplay _ k) => Some (resume tid (k o) w)
      | _ => None
      end
  | SettleGlobal tid o =>
      match tasks w !! tid with
      | Some (OnGlobal k) => Some (resume tid (k o) w)
      | _ => None
      end
  end.

Fixpoint steps (ls : list Label) (w : World) : option World :=
  match ls with
  | [] => Some w
  | l :: rest =>
      match step l w with
      | Some w' => steps rest w'
      | None => None
      end
  end.

(** The schedule in which the host answers every call of the task [tid]
    running [m] at once, as the environment [env] says: the labels that
    follow the start of the task. [n] is the number of calls issued so
    far. *)
Fixpoint answers (m : M unit) (env : Env) (tid : nat) (h : Heap) (n : nat)
  : list Label :=
  match m with
  | Ret _ | Throw _ => []
  | GetHeap k => answers (k h) env tid h n
  | PutHeap h' k => answers k env tid h' n
  | AwaitDisplay c k =>
      SettleDisplay tid (displayOutcome env n c)
        :: answers (k (displayOutcome env n c)) env tid h (S n)
  | AwaitGlobal k =>
      SettleGlobal tid (globalOutcome env n)
        :: answers (k (globalOutcome env n)) env tid h (S n)
  end.

(** What is left of a refresh cycle when its read of the global settings
    is answered by [o]. *)
Definition refreshAfterRead (ev : Event) (o : Outcome GlobalSettings) : M unit :=
  tryCatch (globalSettings <- settle o ;; refreshRender ev globalSettings)
           (refreshCatch ev).

(** A task suspended at the read of the global settings of a refresh cycle
    for [ev]: the cycle of a timer callback or of [onKeyDown], or the cycle
    of a handler that goes on with [rest] afterwards. *)
Inductive AwaitsRead (ev : Event) : Suspended -> Prop :=
| awaits_read_only :
    AwaitsRead ev (OnGlobal (fun o => refreshAfterRead ev o))
| awaits_read_then (rest : unit -> M unit) :
    AwaitsRead ev (OnGlobal (fun o => bind (refreshAfterRead ev o) rest)).


(** The generation of [id]: the refresh cycles started for it so far. *)
Definition generation (id : string) (lg : list (nat * Call)) : nat :=
  refreshCount id lg.*2.

(** The generation a task started its refresh cycle of [id] with: the
    generation right after its loading image, counting from [g]. *)
Fixpoint cycleGeneration (tid : nat) (id : string) (lg : list (nat * Call))
    (g : nat) : option nat :=
  match lg with
  | [] => None
  | (t, c) :: rest =>
      if isLoadingFor id c then
        if Nat.eqb t tid then Some (S g)
        else cycleGeneration tid id rest (S g)
      else cycleGeneration tid id rest g
  end.

End Action.

(* ===================================================================== *)
(** * Part III: concrete events and environments *)
(* ===================================================================== *)

Module Scenarios.
Import Action.

Definition settingsX : Settings := mkSettings (Some "x") (Some 60%Z) ∅.
Definition settingsY : Settings := mkSettings (Some "y") None ∅.
Definition settingsNone : Settings := mkSettings None None ∅.

Definition evX : Event := mkEvent "btn1" settingsX.
Definition evY : Event := mkEvent "btn1" settingsY.
Definition evNone : Event := mkEvent "btn1" settingsNone.

Definition withToken : GlobalSettings := mkGlobalSettings (Some "test-token") ∅.

(** Every call to the host succeeds. *)
Definition envOk : Env :=
  mkEnv (fun _ _ => Resolved tt) (fun _ => Resolved withToken).


(** The read of the global settings fails from the call at position [n] on. *)
Definition envFetchFailsFrom (n : nat) : Env :=
  mkEnv (fun _ _ => Resolved tt)
        (fun k => if Nat.ltb k n then Resolved withToken
                  else Rejected (ErrorObject "Network error")).



Definition accepted : Outcome unit := Resolved tt.

(** Two settings changes for one key in quick succession: the second
    arrives while the first is waiting for the global settings, and is
    served first. *)
Definition overlapPrefix : list Label :=
  [Deliver (DidReceiveSettings evX);
   SettleDisplay 0 accepted; SettleDisplay 0 accepted;
   Deliver (DidReceiveSettings evY);
   SettleDisplay 1 accepted; SettleDisplay 1 accepted;
   SettleGlobal 1 (Resolved withToken);
   SettleDisplay 1 accepted; SettleDisplay 1 accepted].

(** The world after [overlapPrefix]: the first task still waits for the
    global settings, the second has finished. *)
Definition overlapWorld : World :=
  Eval vm_compute in default emptyWorld (steps overlapPrefix emptyWorld).

Definition overlapSuffix : list Label :=
  [SettleGlobal 0 (Resolved withToken);
   SettleDisplay 0 accepted; SettleDisplay 0 accepted].

(** The key appears, and the resource is removed from its settings while
    the first refresh is waiting for the global settings. *)
Definition removedWhileLoading : list Label :=
  [Deliver (WillAppear evX);
   SettleDisplay 0 accepted; SettleDisplay 0 accepted;
   Deliver (DidReceiveSettings evNone);
   SettleDisplay 1 accepted; SettleDisplay 1 accepted;
   SettleGlobal 0 (Resolved withToken);
   SettleDisplay 0 accepted; SettleDisplay 0 accepted].

End Scenarios.

(* ===================================================================== *)
(** * Part III, continued: the key images ([button-renderer.ts]) *)
(* ===================================================================== *)

Module KeyImage.
Import Renderer Action.

(** The colour palette, [COLORS]. *)
Module COLORS.
Definition background : string := "#0d1117".
Definition surface : string := "#161b22".
Definition textPrimary : string := "#e6edf3".
Definition textMuted : string := "#8b949e".
Definition border : string := "#30363d".
Definition accent : string := "#58a6ff".
Definition success : string := "#3fb950".
Definition error : string := "#f85149".
Definition warning : string := "#d29922".
End COLORS.

(** [text.slice(0, finish)] for an integer [finish]: a negative [finish]
    counts from the end of the text, and the result never goes past the
    text. A character of the model stands for one code unit of the
    text. *)
Definition sliceFromStart (text : string) (finish : Z) : string :=
  let len := Z.of_nat (String.length text) in
  let stop := if (finish <? 0)%Z then Z.max (len + finish) 0
              else Z.min finish len in
  substring 0 (Z.to_nat stop) text.

(** [truncate]: a text longer than [maxLen] is cut to [maxLen - 2]
    characters and gets two dots. *)
Definition truncate (text : string) (maxLen : Z) : string :=
  if (Z.of_nat (String.length text) >? maxLen)%Z
  then sliceFromStart text (maxLen - 2) +:+ ".."
  else text.

(** The pieces of the template literals. A line of a template starts with
    a line feed and its tabs. *)
Definition lineFeed : ascii := "010"%char.
Definition tab : ascii := "009"%char.

Definition indent1 : string := String lineFeed (String tab EmptyString).
Definition indent2 : string := indent1 +:+ String tab EmptyString.
Definition indent3 : string := indent2 +:+ String tab EmptyString.

Definition quoted (value : string) : string :=
  String dquote (value +:+ String dquote EmptyString).

Definition attr (name value : string) : string :=
  " " +:+ name +:+ "=" +:+ quoted value.

Definition svgOpen : string :=
  "<svg" +:+ attr "xmlns" "http://www.w3.org/2000/svg" +:+ attr "width" "144"
  +:+ attr "height" "144" +:+ attr "viewBox" "0 0 144 144" +:+ ">".

Definition svgClose : string := "</svg>".

Definition backgroundRect : string :=
  "<rect" +:+ attr "width" "144" +:+ attr "height" "144" +:+ attr "rx" "16"
  +:+ attr "fill" COLORS.background +:+ "/>".

Definition barRect (color : string) : string :=
  "<rect" +:+ attr "width" "144" +:+ attr "height" "6" +:+ attr "rx" "3"
  +:+ attr "fill" color +:+ "/>".

(** [<text x="72" y=... text-anchor="middle" fill=... font-family=...
    font-size=...>content</text>], with [font-weight="bold"] when [bold]. *)
Definition textElement (y fill size : string) (bold : bool) (content : string)
  : string :=
  "<text" +:+ attr "x" "72" +:+ attr "y" y +:+ attr "text-anchor" "middle"
  +:+ attr "fill" fill +:+ attr "font-family" "Arial,Helvetica,sans-serif"
  +:+ attr "font-size" size
  +:+ (if bold then attr "font-weight" "bold" else EmptyString)
  +:+ ">" +:+ content +:+ "</text>".

(** [line1Xml] and [line3Xml]: nothing for a line that is absent or
    empty. *)
Definition optionalLine (line : option string) (y size : string) (maxLen : Z)
  : string :=
  match line with
  | Some text =>
      if truthy line
      then textElement y COLORS.textMuted size false
             (escapeXml (truncate text maxLen))
      else EmptyString
  | None => EmptyString
  end.

(** The [svg] of [renderKeyImage]. *)
Definition keyImageSvg (options : KeyImageOptions) : string :=
  svgOpen
  +:+ indent2 +:+ backgroundRect
  +:+ indent2 +:+ barRect (accentColor options)
  +:+ indent2 +:+ optionalLine (line1 options) "50" "18" 14
  +:+ indent2 +:+ textElement "80" COLORS.textPrimary "30" true
                    (escapeXml (truncate (line2 options) 12))
  +:+ indent2 +:+ optionalLine (line3 options) "110" "15" 18
  +:+ indent1 +:+ svgClose.

Definition loadingDot (cx start : string) : string :=
  "<circle" +:+ attr "cx" cx +:+ attr "cy" "72" +:+ attr "r" "6"
  +:+ attr "fill" COLORS.textMuted +:+ ">"
  +:+ indent3 +:+ "<animate" +:+ attr "attributeName" "opacity"
  +:+ attr "values" "0.3;1;0.3" +:+ attr "dur" "1.2s"
  +:+ attr "repeatCount" "indefinite" +:+ attr "begin" start +:+ "/>"
  +:+ indent2 +:+ "</circle>".

(** The [svg] of [renderLoadingImage]. *)
Definition loadingImageSvg : string :=
  svgOpen
  +:+ indent2 +:+ backgroundRect
  +:+ indent2 +:+ barRect COLORS.border
  +:+ indent2 +:+ loadingDot "52" "0s"
  +:+ indent2 +:+ loadingDot "72" "0.2s"
  +:+ indent2 +:+ loadingDot "92" "0.4s"
  +:+ indent1 +:+ svgClose.

(** The two symbols of the templates, U+26A0 and U+2699, by their UTF-8
    bytes. *)
Definition warningSign : string :=
  String "226"%char (String "154"%char (String "160"%char EmptyString)).
Definition gearSign : string :=
  String "226"%char (String "154"%char (String "153"%char EmptyString)).

(** The [svg] of [renderErrorImage]. *)
Definition errorImageSvg (message : string) : string :=
  svgOpen
  +:+ indent2 +:+ backgroundRect
  +:+ indent2 +:+ barRect COLORS.error
  +:+ indent2 +:+ textElement "70" COLORS.error "24" true warningSign
  +:+ indent2 +:+ textElement "100" COLORS.textMuted "14" false
                    (escapeXml (truncate message 16))
  +:+ indent1 +:+ svgClose.

(** The [svg] of [renderUnconfiguredImage]. *)
Definition unconfiguredImageSvg : string :=
  svgOpen
  +:+ indent2 +:+ backgroundRect
  +:+ indent2 +:+ barRect COLORS.border
  +:+ indent2 +:+ textElement "65" COLORS.textMuted "36" false gearSign
  +:+ indent2 +:+ textElement "100" COLORS.textMuted "14" false "Setup Required"
  +:+ indent1 +:+ svgClose.

(** The occurrences of a character in a text. *)
Fixpoint countChar (c : ascii) (s : string) : nat :=
  match s with
  | EmptyString => 0
  | String a rest => (if Ascii.eqb a c then 1 else 0) + countChar c rest
  end.

(** The five characters that [escapeXml] replaces. *)
Definition isSpecial (a : ascii) : bool :=
  Ascii.eqb a amp || isRaw a.

Fixpoint hasSpecial (s : string) : bool :=
  match s with
  | EmptyString => false
  | String a rest => isSpecial a || hasSpecial rest
  end.

End KeyImage.

(* ===================================================================== *)
(** * Part III, continued: what a handler may send *)
(* ===================================================================== *)

Module Calls.
Import Action.

(** A call that concerns the key [id] only: an image for [id], the empty
    title for [id], or the read of the global settings. *)
Definition ownCall (id : string) (c : Call) : bool :=
  match c with
  | CallDisplay (SetImage id' _) => String.eqb id' id
  | CallDisplay (SetTitle id' title) =>
      String.eqb id' id && String.eqb title EmptyString
  | CallGetGlobalSettings => true
  end.

(** The five calls of a refresh cycle that ends on the image [final]. *)
Definition cycleCalls (ev : Event) (final : Image) : list Call :=
  [CallDisplay (SetImage (actionId ev) renderLoadingImage);
   CallDisplay (SetTitle (actionId ev) EmptyString);
   CallGetGlobalSettings;
   CallDisplay (SetImage (actionId ev) final);
   CallDisplay (SetTitle (actionId ev) EmptyString)].

(** The image of a cycle whose read of the global settings gave [gs]. *)
Definition imageFor (ev : Event) (gs : GlobalSettings) : Image :=
  if truthy (apiToken gs) then dataImage (payloadSettings ev)
  else renderErrorImage "No Token".

(** The delay, in milliseconds, that [onWillAppear] and
    [onDidReceiveSettings] call [setInterval] with for [ev]. *)
Definition periodOf (ev : Event) : Z :=
  (match refreshInterval (payloadSettings ev) with
   | Some n => n
   | None => DEFAULT_REFRESH_INTERVAL
   end * 1000)%Z.

End Calls.

(* ===================================================================== *)
(** * Part III, continued: render calls that throw *)
(* ===================================================================== *)

Module Rendering.
Import Renderer Action KeyImage.

(** ** The runtime

    Every renderer returns ["data:image/svg+xml," +
    encodeURIComponent(svg)]. [encodeURIComponent] is a function of the
    runtime: it throws a [URIError] on a text that holds an unpaired
    surrogate, which [truncate] leaves when it cuts a text between the two
    halves of a pair, and returns otherwise. A character of the model
    stands for one code unit and is not told apart as a surrogate, so
    which texts the runtime refuses is not computed here but given:
    [uriMalformed] says on which texts [encodeURIComponent] throws,
    [uriErrorMessage] is the message of the [URIError]. The data URI is
    not observed, only whether the call throws. *)
Record Runtime : Type := mkRuntime {
  uriMalformed : string -> bool;
  uriErrorMessage : string
}.

(** The value thrown: a [URIError] is an [Error]. *)
Definition uriError (rt : Runtime) : JsError :=
  ErrorObject (uriErrorMessage rt).

(** The [svg] that each renderer hands to [encodeURIComponent]. *)
Definition svgOf (image : Image) : string :=
  match image with
  | renderLoadingImage => loadingImageSvg
  | renderUnconfiguredImage => unconfiguredImageSvg
  | renderErrorImage message => errorImageSvg message
  | renderKeyImage options => keyImageSvg options
  end.

Definition renderThrows (rt : Runtime) (image : Image) : bool :=
  uriMalformed rt (svgOf image).
Arguments renderThrows : simpl never.

(** [ev.action.setImage(render...(...))]: the argument is evaluated
    first, and when it throws the call is not made. [setTitle] takes a
    literal. *)
Definition argumentThrows (rt : Runtime) (c : DisplayCall) : option JsError :=
  match c with
  | SetImage _ image => if renderThrows rt image then Some (uriError rt) else None
  | SetTitle _ _ => None
  end.

(** A runtime that encodes every text, as the runtime does every text
    without an unpaired surrogate, and one that refuses the [svg] of the
    image [image]. *)
Definition plainRuntime : Runtime :=
  mkRuntime (fun _ => false) "URI malformed".

Definition runtimeRefusing (image : Image) : Runtime :=
  mkRuntime (fun svg => String.eqb svg (svgOf image)) "URI malformed".

(** ** Running a handler to completion

    As [exec], with the render calls evaluated: a statement [await
    ev.action.setImage(render...(...))] whose argument throws is left by
    that throw, as it is by a rejected promise, and issues no call. *)
Fixpoint execR {A : Type} (rt : Runtime) (m : M A) (env : Env) (h : Heap)
    (tr : list Call) : Result A :=
  match m with
  | Ret a => mkResult h tr (Normal a)
  | Throw e => mkResult h tr (Thrown e)
  | GetHeap k => execR rt (k h) env h tr
  | PutHeap h' k => execR rt k env h' tr
  | AwaitDisplay c k =>
      match argumentThrows rt c with
      | Some e => execR rt (k (Rejected e)) env h tr
      | None =>
          execR rt (k (displayOutcome env (length tr) c)) env h
                (tr ++ [CallDisplay c])
      end
  | AwaitGlobal k =>
      execR rt (k (globalOutcome env (length tr))) env h
            (tr ++ [CallGetGlobalSettings])
  end.

(** ** What a refresh cycle shows *)

(** The image that a refresh cycle for [ev] has to show once its read of
    the global settings is answered by [o]: the error image of a failed
    read; the data image, or the error image [No Token], of a read that
    succeeded; and, when the render call for that image throws inside the
    [try] block, the error image of the [URIError]. *)
Definition imageAfterRead (rt : Runtime) (ev : Event)
    (o : Outcome GlobalSettings) : Image :=
  match o with
  | Rejected e => renderErrorImage (errorMessage e)
  | Resolved gs =>
      let image :=
        if truthy (apiToken gs) then dataImage (payloadSettings ev)
        else renderErrorImage "No Token" in
      if renderThrows rt image then renderErrorImage (uriErrorMessage rt)
      else image
  end.


(** ** Interleaved execution

    As [advance], [resume], [spawn], [step] and [steps], with the render
    calls evaluated: a task whose render call throws goes on, in the same
    turn, with the throw. *)
Fixpoint advanceR (rt : Runtime) (m : M unit) (h : Heap) : Heap * Paused :=
  match m with
  | Ret a => (h, Finished (Normal a))
  | Throw e => (h, Finished (Thrown e))
  | GetHeap k => advanceR rt (k h) h
  | PutHeap h' k => advanceR rt k h'
  | AwaitDisplay c k =>
      match argumentThrows rt c with
      | Some e => advanceR rt (k (Rejected e)) h
      | None => (h, Waiting (OnDisplay c k))
      end
  | AwaitGlobal k => (h, Waiting (OnGlobal k))
  end.

Definition resumeR (rt : Runtime) (tid : nat) (m : M unit) (w : World) : World :=
  match advanceR rt m (heap w) with
  | (h', Finished (Normal _)) =>
      mkWorld h' (log w) (delete tid (tasks w)) (nextTask w) (rejections w)
  | (h', Finished (Thrown e)) =>
      mkWorld h' (log w) (delete tid (tasks w)) (nextTask w)
              (rejections w ++ [(tid, e)])
  | (h', Waiting s) =>
      mkWorld h' (log w ++ [(tid, callOf s)]) (<[tid := s]> (tasks w))
              (nextTask w) (rejections w)
  end.

Definition spawnR (rt : Runtime) (m : M unit) (w : World) : World :=
  resumeR rt (nextTask w) m
    (mkWorld (heap w) (log w) (tasks w) (S (nextTask w)) (rejections w)).

Definition stepR (rt : Runtime) (l : Label) (w : World) : option World :=
  match l with
  | Deliver e => Some (spawnR rt (dispatch e) w)
  | Fire t =>
      match intervals (heap w) !! t with
      | Some itv => Some (spawnR rt (refresh (callbackEvent itv)) w)
      | None => None
      end
  | SettleDisplay tid o =>
      match tasks w !! tid with
      | Some (OnDisplay _ k) => Some (resumeR rt tid (k o) w)
      | _ => None
      end
  | SettleGlobal tid o =>
      match tasks w !! tid with
      | Some (OnGlobal k) => Some (resumeR rt tid (k o) w)
      | _ => None
      end
  end.

Fixpoint stepsR (rt : Runtime) (ls : list Label) (w : World) : option World :=
  match ls with
  | [] => Some w
  | l :: rest =>
      match stepR rt l w with
      | Some w' => stepsR rt rest w'
      | None => None
      end
  end.

End Rendering.

(* ===================================================================== *)
(** * Part IV: properties of the renderer *)
(* ===================================================================== *)

Module RendererFacts.
Import Renderer.

Example escapeXml_sample :
  escapeXml "a<b & 'c'" = "a&lt;b &amp; &apos;c&apos;".
Proof. reflexivity. Qed.

Example escapeXml_entity_not_kept :
  escapeXml "&lt;" = "&amp;lt;".
Proof. reflexivity. Qed.

Lemma escapeXml_cons (a : ascii) (s : string) :
  escapeXml (String a s) = escapeChar a +:+ escapeXml s.
Proof.
  unfold escapeXml, escapeChar. simpl.
  destruct (Ascii.eqb a amp) eqn:Ea; [reflexivity|]. simpl.
  destruct (Ascii.eqb a lt) eqn:El; [reflexivity|]. simpl.
  destruct (Ascii.eqb a gt) eqn:Eg; [reflexivity|]. simpl.
  destruct (Ascii.eqb a dquote) eqn:Ed; [reflexivity|]. simpl.
  destruct (Ascii.eqb a squote) eqn:Es; reflexivity.
Qed.

(** The five passes amount to one pass that escapes each character. *)
Lemma escapeXml_escapeEach (s : string) : escapeXml s = escapeEach s.
Proof.
  induction s as [|a s IH]; [reflexivity|].
  rewrite escapeXml_cons, IH. reflexivity.
Qed.

Lemma escapeChar_cases (a : ascii) :
  a = amp \/ a = lt \/ a = gt \/ a = dquote \/ a = squote \/
  (escapeChar a = String a EmptyString /\ isRaw a = false /\ a <> amp).
Proof.
  unfold escapeChar, isRaw.
  destruct (Ascii.eqb a amp) eqn:Ea; [apply Ascii.eqb_eq in Ea; tauto|].
  destruct (Ascii.eqb a lt) eqn:El; [apply Ascii.eqb_eq in El; tauto|].
  destruct (Ascii.eqb a gt) eqn:Eg; [apply Ascii.eqb_eq in Eg; tauto|].
  destruct (Ascii.eqb a dquote) eqn:Ed; [apply Ascii.eqb_eq in Ed; tauto|].
  destruct (Ascii.eqb a squote) eqn:Es; [apply Ascii.eqb_eq in Es; tauto|].
  apply Ascii.eqb_neq in Ea. do 5 right. auto.
Qed.

(** An entity followed by safe text is safe text. *)
Lemma safeAt_entity (e rest : string) :
  In e entities ->
  (forall i a, String.get i rest = Some a -> safeAt rest i a) ->
  forall i a, String.get i (e +:+ rest) = Some a -> safeAt (e +:+ rest) i a.
Proof.
  intros He Hrest i a Hget.
  assert (Hshift : forall n, String.length e <= n ->
            String.get n (e +:+ rest) = String.get (n - String.length e) rest /\
            dropString n (e +:+ rest) = dropString (n - String.length e) rest).
  { simpl in He.
    destruct He as [<-|[<-|[<-|[<-|[<-|[]]]]]]; intros n Hn; simpl in Hn;
      do 4 (destruct n as [|n]; [lia|]); simpl;
      try (destruct n as [|n]; [lia|]; simpl);
      try (destruct n as [|n]; [lia|]; simpl);
      rewrite ?Nat.sub_0_r; auto. }
  destruct (Nat.lt_ge_cases i (String.length e)) as [Hlt|Hge].
  - unfold safeAt, startsAt.
    simpl in He.
    destruct He as [<-|[<-|[<-|[<-|[<-|[]]]]]]; simpl in Hlt;
      repeat (destruct i as [|i]; [|try lia]);
      simpl in Hget; injection Hget as <-;
      (split; [reflexivity|]); intros Hamp; try discriminate Hamp;
      match goal with
      | |- exists _, _ /\ String.prefix _ (dropString _ (?e +:+ _)) = true =>
          exists e; split; [simpl; tauto | simpl; destruct rest; reflexivity]
      end.
  - destruct (Hshift i Hge) as [Hg Hd].
    rewrite Hg in Hget. destruct (Hrest _ _ Hget) as [Hraw Hent].
    split; [exact Hraw|]. intros Hamp.
    destruct (Hent Hamp) as (e' & Hin & Hp).
    exists e'. split; [exact Hin|]. unfold startsAt in *. rewrite Hd. exact Hp.
Qed.

Lemma escapeEach_safe (s : string) (i : nat) (a : ascii) :
  String.get i (escapeEach s) = Some a -> safeAt (escapeEach s) i a.
Proof.
  revert i a. induction s as [|c s IH]; intros i a Hget.
  - destruct i; discriminate Hget.
  - simpl in Hget |- *.
    destruct (escapeChar_cases c) as [->|[->|[->|[->|[->|(Hc & Hraw & Hne)]]]]].
    1-5: revert i a Hget; apply safeAt_entity; [simpl; tauto | exact IH].
    rewrite Hc in Hget |- *. simpl in Hget |- *.
    destruct i as [|i].
    + injection Hget as <-. split; [exact Hraw|]. intros ->. congruence.
    + destruct (IH _ _ Hget) as [Hr He]. split; [exact Hr|].
      intros Hamp. destruct (He Hamp) as (e & Hin & Hp).
      exists e. split; [exact Hin|]. exact Hp.
Qed.

(** C10. For every text [s], no character of [escapeXml s] is one of the
    raw characters [<], [>], the double quote and the single quote, and
    every [&] of [escapeXml s] is the first character of one of the
    entities [&amp;], [&lt;], [&gt;], [&quot;], [&apos;] at that place. *)
Theorem escapeXml_safe (s : string) (i : nat) (a : ascii) :
  String.get i (escapeXml s) = Some a ->
  isRaw a = false /\
  (a = amp -> exists e, In e entities /\ startsAt e (escapeXml s) i = true).
Proof.
  rewrite escapeXml_escapeEach. apply escapeEach_safe.
Qed.

Lemma escapeXml_safe_witness :
  String.get 1 (escapeXml "a&<") = Some amp /\
  (isRaw amp = false /\
   (amp = amp ->
    exists e, In e entities /\ startsAt e (escapeXml "a&<") 1 = true)).
Proof.
  split; [reflexivity|].
  apply (escapeXml_safe "a&<" 1 amp). reflexivity.
Defined.

End RendererFacts.

(* ===================================================================== *)
(** * Part V: properties of the example action *)
(* ===================================================================== *)

Module ActionFacts.
Import Action Scenarios Rendering.
Local Open Scope action_scope.

(** ** The monad *)

Lemma exec_bind {A B : Type} (m : M A) (f : A -> M B) env h tr :
  exec (bind m f) env h tr =
  match completion (exec m env h tr) with
  | Normal a =>
      exec (f a) env (finalHeap (exec m env h tr)) (finalTrace (exec m env h tr))
  | Thrown e =>
      mkResult (finalHeap (exec m env h tr)) (finalTrace (exec m env h tr))
               (Thrown e)
  end.
Proof.
  revert h tr.
  induction m as [a|e|k IH|h' k IH|c k IH|k IH]; intros h tr; simpl; auto.
Qed.

Lemma exec_tryCatch {A : Type} (m : M A) (handler : JsError -> M A) env h tr :
  exec (tryCatch m handler) env h tr =
  match completion (exec m env h tr) with
  | Normal a => exec m env h tr
  | Thrown e =>
      exec (handler e) env (finalHeap (exec m env h tr))
           (finalTrace (exec m env h tr))
  end.
Proof.
  revert h tr.
  induction m as [a|e|k IH|h' k IH|c k IH|k IH]; intros h tr; simpl; auto.
Qed.

(** A handler only adds calls to the trace. *)
Lemma exec_trace_extends {A : Type} (m : M A) env h tr :
  exists calls, finalTrace (exec m env h tr) = tr ++ calls.
Proof.
  revert h tr.
  induction m as [a|e|k IH|h' k IH|c k IH|k IH]; intros h tr; simpl.
  - exists []. by rewrite app_nil_r.
  - exists []. by rewrite app_nil_r.
  - apply IH.
  - apply IH.
  - destruct (IH (displayOutcome env (length tr) c) h (tr ++ [CallDisplay c]))
      as [calls ->].
    exists (CallDisplay c :: calls). by rewrite <- app_assoc.
  - destruct (IH (globalOutcome env (length tr)) h (tr ++ [CallGetGlobalSettings]))
      as [calls ->].
    exists (CallGetGlobalSettings :: calls). by rewrite <- app_assoc.
Qed.

(** ** Observations on traces *)

Lemma refreshCount_app id (tr1 tr2 : list Call) :
  refreshCount id (tr1 ++ tr2) = refreshCount id tr1 + refreshCount id tr2.
Proof.
  unfold refreshCount. by rewrite List.filter_app, length_app.
Qed.

Lemma lastImage_app id (tr1 tr2 : list Call) :
  lastImage id (tr1 ++ tr2) =
  match lastImage id tr2 with
  | Some i => Some i
  | None => lastImage id tr1
  end.
Proof.
  induction tr1 as [|c tr1 IH]; simpl.
  - by destruct (lastImage id tr2).
  - rewrite IH. by destruct (lastImage id tr2).
Qed.

Lemma refreshCount_snoc id (tr : list Call) (c : Call) :
  refreshCount id (tr ++ [c]) =
  refreshCount id tr + (if isLoadingFor id c then 1 else 0).
Proof.
  rewrite refreshCount_app. unfold refreshCount. simpl.
  by destruct (isLoadingFor id c).
Qed.

Lemma lastImage_snoc id (tr : list Call) (c : Call) :
  lastImage id (tr ++ [c]) =
  match c with
  | CallDisplay (SetImage id' i) =>
      if String.eqb id' id then Some i else lastImage id tr
  | _ => lastImage id tr
  end.
Proof.
  rewrite lastImage_app. simpl.
  destruct c as [[id' i|id' t]|]; try reflexivity.
  by destruct (String.eqb id' id).
Qed.

(** ** The refresh cycle *)

(** Case analysis on what the environment answers and on the branches
    taken, until the execution is a value. *)
Ltac split_outcomes :=
  repeat (simpl;
    match goal with
    | H : displayOutcome ?e ?n ?c = _ |- context [displayOutcome ?e ?n ?c] =>
        rewrite H
    | H : globalOutcome ?e ?n = _ |- context [globalOutcome ?e ?n] =>
        rewrite H
    | |- context [displayOutcome ?e ?n ?c] =>
        destruct (displayOutcome e n c) as [[]|?] eqn:?
    | |- context [globalOutcome ?e ?n] =>
        destruct (globalOutcome e n) as [?|?] eqn:?
    | |- context [truthy ?x] =>
        destruct (truthy x) eqn:?
    end); simpl.

(** Normal form of a trace: the calls added, as one list. *)
Ltac flatten_trace := rewrite <- ?app_assoc; simpl.

Lemma refresh_heap ev env h tr :
  finalHeap (exec (refresh ev) env h tr) = h.
Proof.
  unfold refresh, refreshBody, refreshRender, refreshCatch.
  split_outcomes; reflexivity.
Qed.

(** A refresh cycle shows the loading image once, first. *)
Lemma refresh_count ev env h tr :
  refreshCount (actionId ev) (finalTrace (exec (refresh ev) env h tr)) =
  S (refreshCount (actionId ev) tr).
Proof.
  unfold refresh, refreshBody, refreshRender, refreshCatch.
  split_outcomes; flatten_trace;
    rewrite refreshCount_app; unfold refreshCount; simpl;
    rewrite String.eqb_refl; simpl; lia.
Qed.

(** A refresh cycle neither reads nor writes the heap: its calls and the
    way it ends are the same from any heap. *)
Lemma refresh_any_heap ev env h1 h2 tr :
  finalTrace (exec (refresh ev) env h1 tr) =
    finalTrace (exec (refresh ev) env h2 tr) /\
  completion (exec (refresh ev) env h1 tr) =
    completion (exec (refresh ev) env h2 tr).
Proof.
  unfold refresh, refreshBody, refreshRender, refreshCatch.
  split_outcomes; split; reflexivity.
Qed.

Lemma refresh_result ev env h tr :
  exec (refresh ev) env h tr =
  mkResult h (finalTrace (exec (refresh ev) env emptyHeap tr))
             (completion (exec (refresh ev) env emptyHeap tr)).
Proof.
  pose proof (refresh_heap ev env h tr) as Hh.
  destruct (refresh_any_heap ev env h emptyHeap tr) as [Ht Hc].
  rewrite <- Ht, <- Hc.
  destruct (exec (refresh ev) env h tr) as [h' t' c']; simpl in *.
  by subst.
Qed.

(** ** The refresh cycle, with its render calls *)

(** With a runtime that encodes every image, evaluating the render calls
    changes nothing. *)
Lemma execR_exec {A : Type} rt (m : M A) env h tr :
  (forall image, renderThrows rt image = false) ->
  execR rt m env h tr = exec m env h tr.
Proof.
  intros Hok. revert h tr.
  induction m as [a|e|k IH|h' k IH|c k IH|k IH]; intros h tr; simpl; auto.
  destruct c as [id image|id title]; simpl; [rewrite Hok|]; apply IH.
Qed.


(** The position of the next call, as a numeral over [length tr]. *)
Ltac count_calls :=
  repeat (progress simpl || rewrite length_app || rewrite Nat.add_1_r).

(** Case analysis on what the runtime and the environment answer and on
    the branches taken, until the execution is a value. *)
Ltac split_rendered :=
  repeat (count_calls;
    match goal with
    | H : renderThrows ?rt ?i = _ |- context [renderThrows ?rt ?i] =>
        rewrite H
    | H : displayOutcome ?e ?n ?c = _ |- context [displayOutcome ?e ?n ?c] =>
        rewrite H
    | H : globalOutcome ?e ?n = _ |- context [globalOutcome ?e ?n] =>
        rewrite H
    | H : truthy ?x = _ |- context [truthy ?x] =>
        rewrite H
    | |- context [renderThrows ?rt ?i] =>
        destruct (renderThrows rt i) eqn:?
    | |- context [displayOutcome ?e ?n ?c] =>
        destruct (displayOutcome e n c) as [[]|?] eqn:?
    | |- context [globalOutcome ?e ?n] =>
        destruct (globalOutcome e n) as [?|?] eqn:?
    | |- context [truthy ?x] =>
        destruct (truthy x) eqn:?
    end); count_calls.

(** A refresh cycle neither reads nor writes the heap. *)
Lemma refreshR_heap rt ev env h tr :
  finalHeap (execR rt (refresh ev) env h tr) = h.
Proof.
  unfold refresh, refreshBody, refreshRender, refreshCatch.
  split_rendered; reflexivity.
Qed.

(** C3, as the code has it. When the read of the global settings of a
    refresh cycle fails (the loading image and the title reset before it
    having been sent and accepted), the cycle ends on the error image with
    the message of the failure, whatever was displayed before, provided
    [renderErrorImage] can encode that image: no earlier result is kept.
    When it cannot, the [URIError] leaves the [catch] block: the cycle
    throws it, sends nothing after the read, and the key stays on the
    loading image. *)
Theorem failed_read_shows_error rt ev env h tr e :
  renderThrows rt renderLoadingImage = false ->
  displayOutcome env (length tr) (SetImage (actionId ev) renderLoadingImage)
    = Resolved tt ->
  displayOutcome env (S (length tr)) (SetTitle (actionId ev) EmptyString) = Resolved tt ->
  globalOutcome env (S (S (length tr))) = Rejected e ->
  let r := execR rt (refresh ev) env h tr in
  if renderThrows rt (renderErrorImage (errorMessage e)) then
    completion r = Thrown (uriError rt) /\
    finalTrace r =
      tr ++ [CallDisplay (SetImage (actionId ev) renderLoadingImage);
             CallDisplay (SetTitle (actionId ev) EmptyString);
             CallGetGlobalSettings] /\
    lastImage (actionId ev) (finalTrace r) = Some renderLoadingImage
  else
    lastImage (actionId ev) (finalTrace r) =
      Some (renderErrorImage (errorMessage e)).
Proof.
  intros Hrender Hload Htitle Hread. cbv zeta.
  unfold refresh, refreshBody, refreshRender, refreshCatch.
  destruct (renderThrows rt (renderErrorImage (errorMessage e))) eqn:Herr;
    split_rendered; flatten_trace;
    repeat split; try reflexivity;
    rewrite lastImage_app; simpl; by rewrite String.eqb_refl.
Qed.

(** A good result is on the key when the read fails: with a runtime that
    encodes the error image the key shows it, with one that refuses it the
    cycle throws. *)
Lemma failed_read_shows_error_witness :
  let r0 := execR plainRuntime (onWillAppear evX) (envFetchFailsFrom 5) emptyHeap [] in
  lastImage "btn1" (finalTrace r0) = Some (dataImage settingsX) /\
  lastImage "btn1"
    (finalTrace (execR plainRuntime (refresh evX) (envFetchFailsFrom 5)
                       (finalHeap r0) (finalTrace r0))) =
    Some (renderErrorImage "Network error") /\
  completion (execR (runtimeRefusing (renderErrorImage "Network error")) (refresh evX)
                    (envFetchFailsFrom 0) emptyHeap []) =
    Thrown (ErrorObject "URI malformed").
Proof.
  cbv zeta. split; [reflexivity|]. split.
  - exact (failed_read_shows_error plainRuntime evX (envFetchFailsFrom 5)
             (finalHeap (execR plainRuntime (onWillAppear evX)
                               (envFetchFailsFrom 5) emptyHeap []))
             (finalTrace (execR plainRuntime (onWillAppear evX)
                                (envFetchFailsFrom 5) emptyHeap []))
             (ErrorObject "Network error") eq_refl eq_refl eq_refl eq_refl).
  - exact (proj1 (failed_read_shows_error (runtimeRefusing (renderErrorImage "Network error")) evX
                    (envFetchFailsFrom 0) emptyHeap []
                    (ErrorObject "Network error")
                    eq_refl eq_refl eq_refl eq_refl)).
Defined.

(** C3 as stated fails: a good result is on the key, the next cycle cannot
    read the global settings, and the key shows the error image. *)
Lemma error_replaces_good_display :
  let '(h1, tr1) := execAll [WillAppear evX] (envFetchFailsFrom 5) emptyHeap [] in
  let '(h2, tr2) :=
    execAll [WillAppear evX; KeyDown evX] (envFetchFailsFrom 5) emptyHeap [] in
  lastImage "btn1" tr1 = Some (dataImage settingsX) /\
  lastImage "btn1" tr2 = Some (renderErrorImage "Network error").
Proof. vm_compute. split; reflexivity. Qed.

(** The claims below are about handlers: keep the cycle folded. *)
Arguments refresh : simpl never.

Lemma exec_startTimer ev env h tr :
  exec (startTimer ev) env h tr =
  mkResult
    (mkHeap (<[actionId ev := nextTimer h]> (timers h))
            (<[nextTimer h :=
                 mkInterval ev
                   (match refreshInterval (payloadSettings ev) with
                    | Some n => n
                    | None => DEFAULT_REFRESH_INTERVAL
                    end * 1000)]> (intervals h))
            (Pos.succ (nextTimer h)))
    tr (Normal tt).
Proof. reflexivity. Qed.

(** [onWillAppear] and [onDidReceiveSettings] with a resource: the cycle,
    then the timer. *)
Lemma exec_cycle_then_timer ev env h tr :
  exec (refresh ev ;;; startTimer ev) env h tr =
  match completion (exec (refresh ev) env h tr) with
  | Normal _ =>
      exec (startTimer ev) env h (finalTrace (exec (refresh ev) env h tr))
  | Thrown e =>
      mkResult h (finalTrace (exec (refresh ev) env h tr)) (Thrown e)
  end.
Proof.
  rewrite exec_bind, refresh_heap. reflexivity.
Qed.

(** The heap once [onDidReceiveSettings] has cleared the timer of the table. *)
Lemma exec_clear_existing {A : Type} ev (rest : M A) env h tr :
  exec (existingTimer <- timersGet (actionId ev) ;;
        match existingTimer with
        | Some t => clearInterval t
        | None => Ret tt
        end ;;; rest) env h tr =
  exec rest env
    (match timers h !! actionId ev with
     | Some t => mkHeap (timers h) (delete t (intervals h)) (nextTimer h)
     | None => h
     end) tr.
Proof.
  simpl. destruct (timers h !! actionId ev); reflexivity.
Qed.

(** ** [onWillDisappear] *)

Lemma exec_onWillDisappear ev env h tr :
  exec (onWillDisappear ev) env h tr =
  mkResult
    (mkHeap (delete (actionId ev) (timers h))
            (match timers h !! actionId ev with
             | Some t => delete t (intervals h)
             | None => intervals h
             end)
            (nextTimer h))
    tr (Normal tt).
Proof.
  unfold onWillDisappear. simpl.
  destruct (timers h !! actionId ev); reflexivity.
Qed.

(** C5. [onWillDisappear] is idempotent: it returns normally and issues no
    call to the host, a second call in a row leaves the heap (timer table
    and active intervals) as the first call left it, and a call for an id
    with no entry in the table leaves the heap as it was. *)
Theorem onWillDisappear_idempotent ev env h tr :
  let r1 := exec (onWillDisappear ev) env h tr in
  let r2 := exec (onWillDisappear ev) env (finalHeap r1) (finalTrace r1) in
  completion r1 = Normal tt /\ finalTrace r1 = tr /\
  completion r2 = Normal tt /\ finalTrace r2 = tr /\
  finalHeap r2 = finalHeap r1 /\
  (timers h !! actionId ev = None -> finalHeap r1 = h).
Proof.
  cbv zeta. rewrite !exec_onWillDisappear. simpl.
  rewrite lookup_delete_eq, delete_delete_eq.
  repeat split; try reflexivity.
  intros Hnone. rewrite Hnone, delete_id by exact Hnone.
  by destruct h.
Qed.

Lemma onWillDisappear_idempotent_witness :
  timers emptyHeap !! actionId evX = None /\
  finalHeap (exec (onWillDisappear evX) envOk emptyHeap []) = emptyHeap.
Proof.
  split; [reflexivity|].
  apply (onWillDisappear_idempotent evX envOk emptyHeap []). reflexivity.
Defined.

(** ** [onWillAppear] *)






(** ** [onDidReceiveSettings] *)

Lemma exec_onDidReceiveSettings_configured ev env h tr :
  truthy (resource (payloadSettings ev)) = true ->
  exec (onDidReceiveSettings ev) env h tr =
  let cleared :=
    match timers h !! actionId ev with
    | Some t => mkHeap (timers h) (delete t (intervals h)) (nextTimer h)
    | None => h
    end in
  match completion (exec (refresh ev) env h tr) with
  | Normal _ =>
      exec (startTimer ev) env cleared (finalTrace (exec (refresh ev) env h tr))
  | Thrown e =>
      mkResult cleared (finalTrace (exec (refresh ev) env h tr)) (Thrown e)
  end.
Proof.
  intros Hres. unfold onDidReceiveSettings.
  rewrite exec_clear_existing. cbv zeta. rewrite Hres. cbn [negb].
  rewrite exec_cycle_then_timer.
  match goal with
  | |- context [exec (refresh ev) env ?h1 tr] =>
      destruct (refresh_any_heap ev env h1 h tr) as [-> ->]
  end.
  reflexivity.
Qed.

Lemma exec_onDidReceiveSettings_unconfigured ev env h tr :
  truthy (resource (payloadSettings ev)) = false ->
  let cleared :=
    match timers h !! actionId ev with
    | Some t => delete t (intervals h)
    | None => intervals h
    end in
  let r := exec (onDidReceiveSettings ev) env h tr in
  intervals (finalHeap r) = cleared /\
  nextTimer (finalHeap r) = nextTimer h /\
  (timers (finalHeap r) = timers h \/
   timers (finalHeap r) = delete (actionId ev) (timers h)) /\
  (exists calls,
     finalTrace r =
       tr ++ CallDisplay (SetImage (actionId ev) renderUnconfiguredImage) :: calls /\
     refreshCount (actionId ev) calls = 0 /\
     lastImage (actionId ev) calls = None).
Proof.
  intros Hres. cbv zeta. unfold onDidReceiveSettings.
  rewrite exec_clear_existing. cbv zeta. rewrite Hres. cbn [negb].
  destruct (timers h !! actionId ev) as [t|]; split_outcomes; flatten_trace;
    (repeat split; [tauto | eexists; repeat split; reflexivity]).
Qed.


(** ** No handler throws while the display answers *)

(** Rewriting with the answers that are known. *)
Ltac use_answer :=
  match goal with
  | H : renderThrows ?rt ?i = _ |- context [renderThrows ?rt ?i] => rewrite H
  | H : displayOutcome ?e ?n ?c = _ |- context [displayOutcome ?e ?n ?c] =>
      rewrite H
  | H : globalOutcome ?e ?n = _ |- context [globalOutcome ?e ?n] => rewrite H
  | H : truthy ?x = _ |- context [truthy ?x] => rewrite H
  end.








(** ** One timer per key, when a key appears once

    Handled one after the other, the handlers keep every active interval
    in the table, as long as [onWillAppear] is not called for a key that
    already owns a timer: [onWillAppear] is the handler that installs
    without cancelling. *)

Lemma tracked_one_timer id h :
  tracked h -> length (activeTimers id h) <= 1.
Proof.
  intros Htr.
  assert (Hnd : NoDup (activeTimers id h)).
  { unfold activeTimers.
    apply (sublist_NoDup _ (map_to_list (intervals h)).*1).
    - apply NoDup_fst_map_to_list.
    - apply fmap_sublist, sublist_filter. }
  assert (Hall : forall t, t ∈ activeTimers id h -> timers h !! id = Some t).
  { intros t Hin. unfold activeTimers in Hin.
    apply list_elem_of_fmap in Hin as ([t' itv] & -> & Hin).
    apply list_elem_of_filter in Hin as [Hkey Hin]. simpl in Hkey.
    apply elem_of_map_to_list in Hin. rewrite <- Hkey. by apply Htr. }
  destruct (activeTimers id h) as [|a [|b l]]; simpl; try lia.
  exfalso.
  assert (a = b).
  { assert (Ha := Hall a). assert (Hb := Hall b).
    rewrite Ha in Hb by set_solver. injection Hb as ->; [done|set_solver]. }
  subst. apply NoDup_cons in Hnd as [Hnotin _]. set_solver.
Qed.

Lemma tracked_clear id h :
  tracked h ->
  let cleared :=
    match timers h !! id with
    | Some t => delete t (intervals h)
    | None => intervals h
    end in
  forall t itv, cleared !! t = Some itv ->
    timers h !! actionId (callbackEvent itv) = Some t /\
    actionId (callbackEvent itv) <> id.
Proof.
  intros Htr cleared t itv Hin. subst cleared.
  destruct (timers h !! id) as [t0|] eqn:Hid.
  - apply lookup_delete_Some in Hin as [Hne Hin].
    split; [by apply Htr|]. intros Hkey.
    apply Htr in Hin. rewrite Hkey, Hid in Hin. congruence.
  - split; [by apply Htr|]. intros Hkey.
    apply Htr in Hin. rewrite Hkey, Hid in Hin. congruence.
Qed.

Lemma tracked_startTimer ev env h tr :
  (forall t itv, intervals h !! t = Some itv ->
     timers h !! actionId (callbackEvent itv) = Some t /\
     actionId (callbackEvent itv) <> actionId ev) ->
  tracked (finalHeap (exec (startTimer ev) env h tr)).
Proof.
  intros Hothers. rewrite exec_startTimer. intros t itv. simpl.
  intros Hin. apply lookup_insert_Some in Hin as [[<- <-]|[Hne Hin]]; simpl.
  - by rewrite lookup_insert_eq.
  - destruct (Hothers _ _ Hin) as [Ht Hkey].
    by rewrite lookup_insert_ne.
Qed.

Lemma tracked_preserved (e : HostEvent) env h tr :
  tracked h ->
  match e with
  | WillAppear ev => timers h !! actionId ev = None
  | _ => True
  end ->
  tracked (finalHeap (exec (dispatch e) env h tr)).
Proof.
  intros Htr Happear. destruct e as [ev|ev|ev|ev]; cbn [dispatch].
  - unfold onWillAppear.
    destruct (truthy (resource (payloadSettings ev))); cbn [negb].
    + rewrite exec_cycle_then_timer.
      destruct (completion (exec (refresh ev) env h tr)); [|exact Htr].
      apply tracked_startTimer. intros t itv Hin.
      pose proof (tracked_clear (actionId ev) h Htr) as Hc.
      rewrite Happear in Hc. by apply Hc.
    + split_outcomes; exact Htr.
  - rewrite exec_onWillDisappear. intros t itv. simpl. intros Hin.
    destruct (tracked_clear (actionId ev) h Htr _ _ Hin) as [Ht Hkey].
    by rewrite lookup_delete_ne.
  - unfold onKeyDown.
    destruct (truthy (resource (payloadSettings ev))); cbn [negb];
      [by rewrite refresh_heap | exact Htr].
  - pose proof (tracked_clear (actionId ev) h Htr) as Hc. cbv zeta in Hc.
    destruct (truthy (resource (payloadSettings ev))) eqn:Hres.
    + rewrite exec_onDidReceiveSettings_configured by exact Hres. cbv zeta.
      destruct (completion (exec (refresh ev) env h tr)).
      * apply tracked_startTimer. intros t itv Hin.
        destruct (timers h !! actionId ev); simpl in Hin; by apply Hc.
      * intros t itv Hin. simpl.
        destruct (timers h !! actionId ev); simpl in *; by apply Hc.
    + destruct (exec_onDidReceiveSettings_unconfigured ev env h tr Hres)
        as (Hi & _ & Ht & _).
      intros t itv Hin. rewrite Hi in Hin.
      destruct (Hc _ _ Hin) as [Hlook Hkey].
      destruct Ht as [-> | ->]; [done|by rewrite lookup_delete_ne].
Qed.

(** The sequences of the host that announce a key once keep one timer
    per key at most. *)
Lemma one_timer_when_appearing_once es env h tr id :
  tracked h ->
  appearsOnce es env h tr ->
  length (activeTimers id (execAll es env h tr).1) <= 1.
Proof.
  revert h tr. induction es as [|e es IH]; intros h tr Htr Happ; simpl.
  - by apply tracked_one_timer.
  - destruct Happ as [He Hrest].
    apply IH; [|exact Hrest]. by apply tracked_preserved.
Qed.

(** ** Settings without a resource

    What the two handlers do when the settings have no resource:
    [onDidReceiveSettings] stops the timer of the table, [onWillAppear]
    leaves the heap as it is. Neither starts a refresh cycle. *)


Lemma onWillAppear_unconfigured ev env h tr :
  truthy (resource (payloadSettings ev)) = false ->
  let r := exec (onWillAppear ev) env h tr in
  finalHeap r = h /\
  refreshCount (actionId ev) (finalTrace r) = refreshCount (actionId ev) tr /\
  lastImage (actionId ev) (finalTrace r) = Some renderUnconfiguredImage.
Proof.
  intros Hres. cbv zeta. unfold onWillAppear. rewrite Hres. cbn [negb].
  split_outcomes; flatten_trace;
    rewrite refreshCount_app, lastImage_app; unfold refreshCount; simpl;
    rewrite String.eqb_refl; repeat split; lia.
Qed.

(** ** What a settings change leaves *)

Lemma tracked_empty : tracked emptyHeap.
Proof. intros t itv Hin. cbn in Hin. by rewrite lookup_empty in Hin. Qed.

Lemma activeTimers_nil id h :
  (forall t itv, intervals h !! t = Some itv ->
     actionId (callbackEvent itv) <> id) ->
  activeTimers id h = [].
Proof.
  intros Hother. unfold activeTimers.
  destruct (filter _ _) as [|[t itv] l] eqn:Hf; [reflexivity|exfalso].
  assert (Hin : (t, itv) ∈ filter
            (fun p : positive * Interval => actionId (callbackEvent p.2) = id)
            (map_to_list (intervals h))) by (rewrite Hf; left).
  apply list_elem_of_filter in Hin as [Hkey Hin]. simpl in Hkey.
  apply elem_of_map_to_list in Hin. by apply (Hother t itv).
Qed.









(** ** Two timers for one key *)

(** C1 at its failing inputs. A second [onWillAppear] for a key installs a
    second timer without cancelling the first: both are active and the
    table holds only the second, so that [onWillDisappear] leaves the
    first one running. The same happens when two [onDidReceiveSettings]
    for one key overlap: each installs its timer after its awaited cycle. *)
Theorem second_timer_leaks :
  (let '(h, _) := execAll [WillAppear evX; WillAppear evX] envOk emptyHeap [] in
   activeTimers "btn1" h = [2%positive; 1%positive] /\
   timers h !! "btn1" = Some 2%positive) /\
  (let '(h, _) :=
     execAll [WillAppear evX; WillAppear evX; WillDisappear evX]
             envOk emptyHeap [] in
   activeTimers "btn1" h = [1%positive] /\ timers h !! "btn1" = None) /\
  match steps (overlapPrefix ++ overlapSuffix) emptyWorld with
  | Some w =>
      activeTimers "btn1" (heap w) = [2%positive; 1%positive] /\
      timers (heap w) !! "btn1" = Some 2%positive /\
      size (tasks w) = 0
  | None => False
  end.
Proof. vm_compute. repeat split; reflexivity. Qed.

(** C7 at its failing inputs. [onWillAppear] without a resource shows the
    placeholder and leaves a timer of the key running; and when the
    resource is removed while the first refresh of [onWillAppear] is
    waiting, the key ends on the data image with a timer running. *)
Theorem unconfigured_with_timer_running :
  (let '(h, tr) :=
     execAll [WillAppear evX; WillAppear evNone] envOk emptyHeap [] in
   lastImage "btn1" tr = Some renderUnconfiguredImage /\
   activeTimers "btn1" h = [1%positive]) /\
  match steps removedWhileLoading emptyWorld with
  | Some w =>
      lastImage "btn1" (log w).*2 = Some (dataImage settingsX) /\
      activeTimers "btn1" (heap w) = [1%positive] /\
      settingsInUse "btn1" (heap w) = Some settingsX /\
      size (tasks w) = 0
  | None => False
  end.
Proof. vm_compute. repeat split; reflexivity. Qed.

(** ** Overlapping refresh cycles *)

Lemma resume_log tid m w :
  exists calls, log (resume tid m w) = log w ++ calls.
Proof.
  unfold resume.
  destruct (advance m (heap w)) as [h' [[[]|e]|s]]; simpl;
    eexists; try reflexivity; by rewrite app_nil_r.
Qed.

Lemma step_log l w w' :
  step l w = Some w' -> exists calls, log w' = log w ++ calls.
Proof.
  destruct l as [e|t|tid o|tid o]; simpl.
  - intros [= <-]. apply (resume_log _ _ (mkWorld _ _ _ _ _)).
  - destruct (intervals (heap w) !! t); [|discriminate].
    intros [= <-]. apply (resume_log _ _ (mkWorld _ _ _ _ _)).
  - destruct (tasks w !! tid) as [[c k|k]|]; try discriminate.
    intros [= <-]. apply resume_log.
  - destruct (tasks w !! tid) as [[c k|k]|]; try discriminate.
    intros [= <-]. apply resume_log.
Qed.

(** The generation of a key never decreases. *)
Lemma generation_monotone l w w' id :
  step l w = Some w' -> generation id (log w) <= generation id (log w').
Proof.
  intros Hstep. destruct (step_log _ _ _ Hstep) as [calls ->].
  unfold generation. rewrite fmap_app, refreshCount_app. lia.
Qed.

(** C2, as the code has it. The action has no generation counter and
    never discards a result. A refresh cycle that waits for the global
    settings, once answered, goes on whatever the log holds, that is,
    however many cycles have been started for the key meanwhile: it
    passes the image of [imageAfterRead] (the data or an error image) to
    [setImage]. The one way for it to end without a display update is that
    the runtime cannot encode that image, which then is an error image
    rendered in the [catch] block: the task throws the [URIError]. Either
    way the heap is as it was. *)
Theorem refresh_not_generation_gated rt w tid ev s o :
  tasks w !! tid = Some s ->
  AwaitsRead ev s ->
  exists w',
    stepR rt (SettleGlobal tid o) w = Some w' /\
    heap w' = heap w /\
    if renderThrows rt (imageAfterRead rt ev o) then
      log w' = log w /\
      tasks w' !! tid = None /\
      rejections w' = rejections w ++ [(tid, uriError rt)]
    else
      log w' =
        log w ++
        [(tid, CallDisplay (SetImage (actionId ev) (imageAfterRead rt ev o)))] /\
      (isDataImage (imageAfterRead rt ev o)
       || isErrorImage (imageAfterRead rt ev o)) = true.
Proof.
  intros Htask Hs. cbn [stepR]. rewrite Htask.
  destruct Hs as [|rest];
    (eexists; split; [reflexivity|]);
    unfold resumeR, refreshAfterRead, refreshRender, refreshCatch,
      imageAfterRead, dataImage;
    (destruct o as [gs|e]; cbn [settle bind tryCatch];
     [destruct (truthy (apiToken gs)); cbn [negb]; cbv zeta|]);
    repeat (count_calls;
            first [use_answer
                  | match goal with
                    | |- context [renderThrows ?rt ?i] =>
                        destruct (renderThrows rt i) eqn:?
                    end]);
    cbn [heap log tasks rejections callOf];
    rewrite ?lookup_delete_eq; repeat split; reflexivity.
Qed.

(** The first of two overlapping cycles, answered last: its generation is
    1, the generation of the key is 2. *)
Lemma refresh_not_generation_gated_witness :
  stepsR plainRuntime overlapPrefix emptyWorld = Some overlapWorld /\
  cycleGeneration 0 "btn1" (log overlapWorld) 0 = Some 1 /\
  generation "btn1" (log overlapWorld) = 2 /\
  exists w',
    stepR plainRuntime (SettleGlobal 0 (Resolved withToken)) overlapWorld
      = Some w' /\
    log w' =
      log overlapWorld ++
      [(0, CallDisplay (SetImage "btn1" (dataImage settingsX)))].
Proof.
  split; [vm_compute; reflexivity|].
  split; [vm_compute; reflexivity|].
  split; [vm_compute; reflexivity|].
  destruct (refresh_not_generation_gated plainRuntime overlapWorld 0 evX
              (OnGlobal (fun o => bind (refreshAfterRead evX o)
                                       (fun _ => startTimer evX)))
              (Resolved withToken))
    as (w' & Hstep & _ & Hlog & _).
  - vm_compute. reflexivity.
  - apply (awaits_read_then evX (fun _ => startTimer evX)).
  - exists w'. split; [exact Hstep | exact Hlog].
Defined.

(** ** Handling to completion is one of the interleavings *)

Lemma resume_put tid h' k w :
  resume tid (PutHeap h' k) w =
  resume tid k (mkWorld h' (log w) (tasks w) (nextTask w) (rejections w)).
Proof. reflexivity. Qed.

Lemma answered_task (m : M unit) env tid w :
  exists w',
    steps (answers m env tid (heap w) (length (log w))) (resume tid m w)
      = Some w' /\
    heap w' = finalHeap (exec m env (heap w) (log w).*2) /\
    (log w').*2 = finalTrace (exec m env (heap w) (log w).*2) /\
    tasks w' = delete tid (tasks w) /\
    nextTask w' = nextTask w /\
    rejections w' =
      rejections w ++
      match completion (exec m env (heap w) (log w).*2) with
      | Normal _ => []
      | Thrown e => [(tid, e)]
      end.
Proof.
  revert w. induction m as [[]|e|k IH|h' k IH|c k IH|k IH]; intros w.
  - eexists. split; [reflexivity|]. simpl.
    repeat split; try reflexivity. by rewrite app_nil_r.
  - eexists. split; [reflexivity|]. simpl. repeat split; reflexivity.
  - apply (IH (heap w) w).
  - rewrite resume_put.
    apply (IH (mkWorld h' (log w) (tasks w) (nextTask w) (rejections w))).
  - set (o := displayOutcome env (length (log w)) c).
    set (w1 := mkWorld (heap w) (log w ++ [(tid, CallDisplay c)])
                       (<[tid := OnDisplay c k]> (tasks w))
                       (nextTask w) (rejections w)).
    destruct (IH o w1) as (w' & Hsteps & Hh & Hl & Ht & Hn & Hr).
    exists w'. unfold w1 in *. cbn [heap log tasks nextTask rejections] in *.
    rewrite length_app, Nat.add_1_r in Hsteps.
    rewrite fmap_app in Hh, Hl, Hr. cbn [fmap list_fmap snd] in Hh, Hl, Hr.
    rewrite delete_insert_eq in Ht.
    split; [|simpl; rewrite length_fmap; fold o; auto].
    change (resume tid (AwaitDisplay c k) w) with w1. unfold w1.
    simpl. rewrite lookup_insert_eq. exact Hsteps.
  - set (o := globalOutcome env (length (log w))).
    set (w1 := mkWorld (heap w) (log w ++ [(tid, CallGetGlobalSettings)])
                       (<[tid := OnGlobal k]> (tasks w))
                       (nextTask w) (rejections w)).
    destruct (IH o w1) as (w' & Hsteps & Hh & Hl & Ht & Hn & Hr).
    exists w'. unfold w1 in *. cbn [heap log tasks nextTask rejections] in *.
    rewrite length_app, Nat.add_1_r in Hsteps.
    rewrite fmap_app in Hh, Hl, Hr. cbn [fmap list_fmap snd] in Hh, Hl, Hr.
    rewrite delete_insert_eq in Ht.
    split; [|simpl; rewrite length_fmap; fold o; auto].
    change (resume tid (AwaitGlobal k) w) with w1. unfold w1.
    simpl. rewrite lookup_insert_eq. exact Hsteps.
Qed.

(** A notification handled to completion ([exec]) is the interleaved
    execution in which the host answers each call of the handler before
    anything else happens. *)
Lemma exec_is_a_schedule (e : HostEvent) env w :
  exists w',
    steps (Deliver e ::
           answers (dispatch e) env (nextTask w) (heap w) (length (log w))) w
      = Some w' /\
    heap w' = finalHeap (exec (dispatch e) env (heap w) (log w).*2) /\
    (log w').*2 = finalTrace (exec (dispatch e) env (heap w) (log w).*2) /\
    tasks w' = delete (nextTask w) (tasks w).
Proof.
  destruct (answered_task (dispatch e) env (nextTask w)
              (mkWorld (heap w) (log w) (tasks w) (S (nextTask w))
                       (rejections w)))
    as (w' & Hsteps & Hh & Hl & Ht & _).
  exists w'. repeat split; assumption.
Qed.

(** Every handler that refreshes, and every timer callback, comes to wait
    for the global settings once the host has accepted the loading image
    and the title reset. *)
Lemma cycle_reaches_read (e : HostEvent) w :
  truthy (resource (payloadSettings (eventOf e))) = true ->
  (forall ev, e <> WillDisappear ev) ->
  exists w2 s,
    steps [Deliver e; SettleDisplay (nextTask w) accepted;
           SettleDisplay (nextTask w) accepted] w = Some w2 /\
    tasks w2 !! nextTask w = Some s /\
    AwaitsRead (eventOf e) s.
Proof.
  intros Hres Hnot.
  destruct e as [ev|ev|ev|ev]; cbn [eventOf] in Hres |- *;
    [| by destruct (Hnot ev) | |].
  - cbn [steps step dispatch]. unfold onWillAppear. rewrite Hres.
    cbn [negb]. unfold spawn, resume, refresh. simpl.
    unfold accepted.
    rewrite lookup_insert_eq. simpl. rewrite lookup_insert_eq. simpl.
    eexists _, _. split; [reflexivity|]. cbn [tasks].
    rewrite lookup_insert_eq.
    split; [reflexivity|].
    apply (awaits_read_then ev (fun _ => startTimer ev)).
  - cbn [steps step dispatch]. unfold onKeyDown. rewrite Hres.
    cbn [negb]. unfold spawn, resume, refresh. simpl.
    unfold accepted.
    rewrite lookup_insert_eq. simpl. rewrite lookup_insert_eq. simpl.
    eexists _, _. split; [reflexivity|]. cbn [tasks].
    rewrite lookup_insert_eq.
    split; [reflexivity|].
    apply (awaits_read_only ev).
  - cbn [steps step dispatch]. unfold onDidReceiveSettings.
    unfold spawn, resume, refresh. simpl.
    unfold accepted.
    destruct (timers (heap w) !! actionId ev); simpl; rewrite Hres; simpl;
      rewrite lookup_insert_eq; simpl; rewrite lookup_insert_eq; simpl;
      (eexists _, _; split; [reflexivity|]; cbn [tasks];
       rewrite lookup_insert_eq;
       split; [reflexivity|]);
      apply (awaits_read_then ev (fun _ => startTimer ev)).
Qed.

(** The same with the render calls evaluated, for a runtime that encodes
    the loading image. *)
Lemma cycleR_reaches_read rt (e : HostEvent) w :
  renderThrows rt renderLoadingImage = false ->
  truthy (resource (payloadSettings (eventOf e))) = true ->
  (forall ev, e <> WillDisappear ev) ->
  exists w2 s,
    stepsR rt [Deliver e; SettleDisplay (nextTask w) accepted;
               SettleDisplay (nextTask w) accepted] w = Some w2 /\
    tasks w2 !! nextTask w = Some s /\
    AwaitsRead (eventOf e) s.
Proof.
  intros Hload Hres Hnot.
  destruct e as [ev|ev|ev|ev]; cbn [eventOf] in Hres |- *;
    [| by destruct (Hnot ev) | |].
  - cbn [stepsR stepR dispatch]. unfold onWillAppear. rewrite Hres.
    cbn [negb]. unfold spawnR, resumeR, refresh. simpl. rewrite Hload. simpl.
    unfold accepted.
    rewrite lookup_insert_eq. simpl. rewrite lookup_insert_eq. simpl.
    eexists _, _. split; [reflexivity|]. cbn [tasks].
    rewrite lookup_insert_eq.
    split; [reflexivity|].
    apply (awaits_read_then ev (fun _ => startTimer ev)).
  - cbn [stepsR stepR dispatch]. unfold onKeyDown. rewrite Hres.
    cbn [negb]. unfold spawnR, resumeR, refresh. simpl. rewrite Hload. simpl.
    unfold accepted.
    rewrite lookup_insert_eq. simpl. rewrite lookup_insert_eq. simpl.
    eexists _, _. split; [reflexivity|]. cbn [tasks].
    rewrite lookup_insert_eq.
    split; [reflexivity|].
    apply (awaits_read_only ev).
  - cbn [stepsR stepR dispatch]. unfold onDidReceiveSettings.
    unfold spawnR, resumeR, refresh. simpl.
    unfold accepted.
    destruct (timers (heap w) !! actionId ev); simpl; rewrite Hres; simpl;
      rewrite Hload; simpl;
      rewrite lookup_insert_eq; simpl; rewrite lookup_insert_eq; simpl;
      (eexists _, _; split; [reflexivity|]; cbn [tasks];
       rewrite lookup_insert_eq;
       split; [reflexivity|]);
      apply (awaits_read_then ev (fun _ => startTimer ev)).
Qed.

Lemma callback_reaches_read t itv w :
  intervals (heap w) !! t = Some itv ->
  exists w2 s,
    steps [Fire t; SettleDisplay (nextTask w) accepted;
           SettleDisplay (nextTask w) accepted] w = Some w2 /\
    tasks w2 !! nextTask w = Some s /\
    AwaitsRead (callbackEvent itv) s.
Proof.
  intros Hitv. cbn [steps step]. rewrite Hitv.
  unfold spawn, resume, refresh, accepted. simpl.
  rewrite lookup_insert_eq. simpl. rewrite lookup_insert_eq. simpl.
  eexists _, _. split; [reflexivity|]. cbn [tasks].
    rewrite lookup_insert_eq.
  split; [reflexivity|].
  apply (awaits_read_only (callbackEvent itv)).
Qed.

(** C2 as stated fails. Two settings changes overlap; the cycle of the
    first started with generation 1, the generation is 2 when its read is
    answered, and it still sets the image of the key, to the data of
    settings that are no longer the current ones; its handler then
    installs a timer on those settings. *)
Lemma stale_cycle_updates_display :
  match steps overlapPrefix emptyWorld with
  | Some w =>
      cycleGeneration 0 "btn1" (log w) 0 = Some 1 /\
      generation "btn1" (log w) = 2 /\
      lastImage "btn1" (log w).*2 = Some (dataImage settingsY) /\
      match step (SettleGlobal 0 (Resolved withToken)) w with
      | Some w' =>
          log w' =
            log w ++ [(0, CallDisplay (SetImage "btn1" (dataImage settingsX)))] /\
          lastImage "btn1" (log w').*2 = Some (dataImage settingsX)
      | None => False
      end
  | None => False
  end /\
  match steps (overlapPrefix ++ overlapSuffix) emptyWorld with
  | Some w => settingsInUse "btn1" (heap w) = Some settingsX
  | None => False
  end.
Proof. vm_compute. repeat split; reflexivity. Qed.

End ActionFacts.

(* ===================================================================== *)
(** * Part VI: further properties of the renderer *)
(* ===================================================================== *)

Module KeyImageFacts.
Import Renderer Action KeyImage RendererFacts.

(** ** Texts *)

Lemma append_cons (x : ascii) (a b : string) :
  String x a +:+ b = String x (a +:+ b).
Proof. reflexivity. Qed.

Lemma append_nil (b : string) : EmptyString +:+ b = b.
Proof. reflexivity. Qed.

Lemma append_assoc (a b c : string) : (a +:+ b) +:+ c = a +:+ (b +:+ c).
Proof.
  induction a as [|x a IH]; [reflexivity|].
  by rewrite !append_cons, IH.
Qed.

Lemma append_length (a b : string) :
  String.length (a +:+ b) = String.length a + String.length b.
Proof.
  induction a as [|x a IH]; [reflexivity|].
  rewrite append_cons. simpl. by rewrite IH.
Qed.

Lemma substring_length (m : nat) (s : string) :
  String.length (substring 0 m s) = Nat.min m (String.length s).
Proof.
  revert m. induction s as [|x s IH]; intros [|m]; simpl; try reflexivity.
  by rewrite IH.
Qed.

Lemma countChar_app c (a b : string) :
  countChar c (a +:+ b) = countChar c a + countChar c b.
Proof.
  induction a as [|x a IH]; [reflexivity|].
  rewrite append_cons. simpl. rewrite IH. lia.
Qed.

(** ** [escapeXml] *)

Lemma escapeEach_app (a b : string) :
  escapeEach (a +:+ b) = escapeEach a +:+ escapeEach b.
Proof.
  induction a as [|x a IH]; [reflexivity|].
  rewrite append_cons. simpl. by rewrite IH, append_assoc.
Qed.

(** X1. Escaping a concatenation is concatenating the escaped parts. *)
Theorem escapeXml_app (a b : string) :
  escapeXml (a +:+ b) = escapeXml a +:+ escapeXml b.
Proof. rewrite !escapeXml_escapeEach. apply escapeEach_app. Qed.

(** The escaped form of a text that starts with the character [x]. *)
Ltac unfold_escaped H :=
  cbv [escapeChar amp lt gt dquote squote Ascii.eqb Bool.eqb] in H;
  rewrite ?append_cons, ?append_nil in H.

Lemma escapeEach_injective (a b : string) :
  escapeEach a = escapeEach b -> a = b.
Proof.
  revert b. induction a as [|x a IH]; intros [|y b] H.
  - reflexivity.
  - exfalso. simpl in H.
    destruct (escapeChar_cases y) as [->|[->|[->|[->|[->|(Hy & _)]]]]];
      try rewrite Hy in H; unfold_escaped H; discriminate H.
  - exfalso. simpl in H.
    destruct (escapeChar_cases x) as [->|[->|[->|[->|[->|(Hx & _)]]]]];
      try rewrite Hx in H; unfold_escaped H; discriminate H.
  - simpl in H.
    destruct (escapeChar_cases x) as [->|[->|[->|[->|[->|(Hx & _ & Hxa)]]]]];
      destruct (escapeChar_cases y) as [->|[->|[->|[->|[->|(Hy & _ & Hya)]]]]];
      try rewrite Hx in H; try rewrite Hy in H; unfold_escaped H;
      try discriminate H;
      try (injection H as H; f_equal; by apply IH);
      try (injection H as Hc H; exfalso; unfold amp in *; congruence).
    injection H as Hxy H. subst y. f_equal. by apply IH.
Qed.

(** X2. [escapeXml] loses nothing: two texts with the same escaped form
    are the same text. *)
Theorem escapeXml_injective (a b : string) :
  escapeXml a = escapeXml b -> a = b.
Proof. rewrite !escapeXml_escapeEach. apply escapeEach_injective. Qed.

Lemma escapeXml_injective_witness :
  escapeXml "a<b" = escapeXml "a<b" /\ "a<b" = "a<b".
Proof.
  split; [reflexivity|]. apply (escapeXml_injective "a<b" "a<b"). reflexivity.
Defined.

Lemma isSpecial_cases (a : ascii) :
  (isSpecial a = true /\ 4 <= String.length (escapeChar a) <= 6) \/
  (isSpecial a = false /\ escapeChar a = String a EmptyString).
Proof.
  destruct (escapeChar_cases a) as [->|[->|[->|[->|[->|(Ha & Hraw & Hne)]]]]].
  1-5: left; split; [reflexivity | simpl; lia].
  right. split; [|exact Ha]. unfold isSpecial. rewrite Hraw.
  apply Ascii.eqb_neq in Hne. by rewrite Hne.
Qed.

Lemma escapeEach_length (s : string) :
  String.length s <= String.length (escapeEach s) <= 6 * String.length s /\
  (hasSpecial s = true -> String.length s < String.length (escapeEach s)) /\
  (hasSpecial s = false -> escapeEach s = s).
Proof.
  induction s as [|a s (IHb & IHt & IHf)]; simpl.
  - split; [lia|]. split; [discriminate|reflexivity].
  - rewrite append_length.
    destruct (isSpecial_cases a) as [[-> Hlen]|[-> Hplain]]; simpl.
    + split; [lia|]. split; [intros _; lia|discriminate].
    + rewrite Hplain. simpl. split; [lia|]. split.
      * intros H. apply IHt in H. lia.
      * intros H. by rewrite IHf.
Qed.

(** X3. [escapeXml] returns a text as it is exactly when the text has none
    of the five characters [&], [<], [>], the double and the single
    quote. *)
Theorem escapeXml_unchanged_iff (s : string) :
  escapeXml s = s <-> hasSpecial s = false.
Proof.
  rewrite escapeXml_escapeEach.
  destruct (escapeEach_length s) as (_ & Ht & Hf).
  split; [|exact Hf].
  intros Heq. destruct (hasSpecial s); [|reflexivity].
  specialize (Ht eq_refl). rewrite Heq in Ht. lia.
Qed.

Lemma escapeXml_unchanged_iff_witness :
  (escapeXml "my-resource" = "my-resource" <-> hasSpecial "my-resource" = false)
  /\ escapeXml "my-resource" = "my-resource".
Proof.
  split; [apply (escapeXml_unchanged_iff "my-resource")|].
  apply (escapeXml_unchanged_iff "my-resource"). reflexivity.
Defined.

(** X4. An escaped text is at least as long as the text and at most six
    times as long. *)
Theorem escapeXml_length (s : string) :
  String.length s <= String.length (escapeXml s) <= 6 * String.length s.
Proof. rewrite escapeXml_escapeEach. apply escapeEach_length. Qed.

(** ** [truncate] *)

Lemma sliceFromStart_length (text : string) (finish : Z) :
  Z.of_nat (String.length (sliceFromStart text finish)) =
  if (finish <? 0)%Z
  then Z.max (Z.of_nat (String.length text) + finish) 0
  else Z.min finish (Z.of_nat (String.length text)).
Proof.
  unfold sliceFromStart. rewrite substring_length.
  destruct (finish <? 0)%Z eqn:Hneg; lia.
Qed.

(** The bound that the lemmas on truncated texts share. *)
Lemma truncate_length_min (text : string) (maxLen : Z) :
  (2 <= maxLen)%Z ->
  (Z.of_nat (String.length (truncate text maxLen)) <= maxLen)%Z.
Proof.
  intros Hmax. unfold truncate.
  destruct (Z.of_nat (String.length text) >? maxLen)%Z eqn:Hlong; [|lia].
  rewrite append_length, Nat2Z.inj_add, sliceFromStart_length.
  destruct (maxLen - 2 <? 0)%Z eqn:Hneg; simpl; lia.
Qed.

(** X5. For a limit of two or more, the truncated text has the length of
    the text or the limit, whichever is smaller: it never exceeds the
    limit. *)
Theorem truncate_length (text : string) (maxLen : Z) :
  (2 <= maxLen)%Z ->
  Z.of_nat (String.length (truncate text maxLen)) =
  Z.min (Z.of_nat (String.length text)) maxLen.
Proof.
  intros Hmax. unfold truncate.
  destruct (Z.of_nat (String.length text) >? maxLen)%Z eqn:Hlong.
  - rewrite append_length, Nat2Z.inj_add, sliceFromStart_length.
    destruct (maxLen - 2 <? 0)%Z eqn:Hneg; simpl; lia.
  - lia.
Qed.

Lemma truncate_length_witness :
  (2 <= 14)%Z /\
  Z.of_nat (String.length (truncate "a-very-long-resource-name" 14)) =
  Z.min (Z.of_nat (String.length "a-very-long-resource-name")) 14.
Proof.
  split; [lia|]. apply (truncate_length "a-very-long-resource-name" 14). lia.
Defined.

(** X6. For a limit of two or more, truncating twice is truncating
    once. *)
Theorem truncate_idempotent (text : string) (maxLen : Z) :
  (2 <= maxLen)%Z ->
  truncate (truncate text maxLen) maxLen = truncate text maxLen.
Proof.
  intros Hmax.
  pose proof (truncate_length_min text maxLen Hmax) as Hlen.
  unfold truncate at 1.
  destruct (Z.of_nat (String.length (truncate text maxLen)) >? maxLen)%Z eqn:H;
    [lia|reflexivity].
Qed.

Lemma truncate_idempotent_witness :
  (2 <= 12)%Z /\
  truncate (truncate "1234567890abcdef" 12) 12 = truncate "1234567890abcdef" 12.
Proof.
  split; [lia|]. apply (truncate_idempotent "1234567890abcdef" 12). lia.
Defined.

(** X7. For a limit below two the cut counts from the end of the text:
    a text longer than the limit keeps its characters but the last
    [2 - maxLen] and gets the two dots, so that the result is longer than
    the limit; with the limit 1 it is longer than the text itself. *)
Theorem truncate_small_limit (text : string) (maxLen : Z) :
  (maxLen < 2)%Z ->
  (maxLen < Z.of_nat (String.length text))%Z ->
  Z.of_nat (String.length (truncate text maxLen)) =
    (Z.max (Z.of_nat (String.length text) + maxLen - 2) 0 + 2)%Z /\
  (maxLen < Z.of_nat (String.length (truncate text maxLen)))%Z.
Proof.
  intros Hsmall Hlong. unfold truncate.
  destruct (Z.of_nat (String.length text) >? maxLen)%Z eqn:Hgt; [|lia].
  rewrite append_length, Nat2Z.inj_add, sliceFromStart_length.
  destruct (maxLen - 2 <? 0)%Z eqn:Hneg; simpl; lia.
Qed.

Lemma truncate_small_limit_witness :
  (1 < 2)%Z /\ (1 < Z.of_nat (String.length "abc"))%Z /\
  truncate "abc" 1 = "ab.." /\
  (1 < Z.of_nat (String.length (truncate "abc" 1)))%Z.
Proof.
  split; [lia|]. split; [simpl; lia|]. split; [reflexivity|].
  apply (truncate_small_limit "abc" 1); simpl; lia.
Defined.

(** X8. What a renderer puts in a text element, the escaped form of the
    truncated text, has at most six times the limit in characters, however
    long the text is. *)
Theorem escaped_truncated_length (text : string) (maxLen : Z) :
  (2 <= maxLen)%Z ->
  (Z.of_nat (String.length (escapeXml (truncate text maxLen))) <= 6 * maxLen)%Z.
Proof.
  intros Hmax.
  pose proof (escapeEach_length (truncate text maxLen)) as [[_ Hup] _].
  rewrite escapeXml_escapeEach.
  pose proof (truncate_length_min text maxLen Hmax) as Hlen.
  lia.
Qed.

Lemma escaped_truncated_length_witness :
  (2 <= 16)%Z /\
  (Z.of_nat (String.length (escapeXml (truncate "<<<<<<<<<<<<<<<<<<<<" 16)))
     <= 6 * 16)%Z.
Proof.
  split; [lia|]. apply (escaped_truncated_length "<<<<<<<<<<<<<<<<<<<<" 16). lia.
Defined.

(** ** The markup of the key images *)

Lemma isRaw_cases (c : ascii) :
  isRaw c = true -> c = lt \/ c = gt \/ c = dquote \/ c = squote.
Proof.
  unfold isRaw. intros H.
  repeat (apply orb_true_iff in H as [H|H]);
    apply Ascii.eqb_eq in H; tauto.
Qed.

(** An escaped text has none of the raw characters. *)
Lemma countChar_escaped (c : ascii) (s : string) :
  isRaw c = true -> countChar c (escapeXml s) = 0.
Proof.
  intros Hc. rewrite escapeXml_escapeEach.
  induction s as [|a s IH]; [reflexivity|].
  simpl. rewrite countChar_app, IH, Nat.add_0_r.
  destruct (escapeChar_cases a) as [->|[->|[->|[->|[->|(Ha & Hraw & _)]]]]].
  1-5: destruct (isRaw_cases c Hc) as [->|[->|[->| ->]]]; reflexivity.
  rewrite Ha. simpl.
  destruct (Ascii.eqb a c) eqn:Hac; [|reflexivity].
  apply Ascii.eqb_eq in Hac. subst. congruence.
Qed.

Lemma quoted_append (value : string) :
  quoted value =
  String dquote EmptyString +:+ value +:+ String dquote EmptyString.
Proof. reflexivity. Qed.

Lemma countChar_textElement c y fill size bold content :
  countChar c (textElement y fill size bold content) =
  countChar c (textElement y fill size bold EmptyString) + countChar c content.
Proof.
  unfold textElement. rewrite !countChar_app.
  change (countChar c EmptyString) with 0. lia.
Qed.

Lemma countChar_optionalLine c line y size maxLen :
  isRaw c = true ->
  countChar c (optionalLine line y size maxLen) =
  if truthy line
  then countChar c (textElement y COLORS.textMuted size false EmptyString)
  else 0.
Proof.
  intros Hc. destruct line as [[|x text]|]; try reflexivity.
  unfold optionalLine. cbn [truthy].
  by rewrite countChar_textElement, countChar_escaped, Nat.add_0_r.
Qed.

Lemma countChar_barRect c color :
  countChar c (barRect color) =
  countChar c (barRect EmptyString) + countChar c color.
Proof.
  unfold barRect, attr. rewrite !quoted_append, !countChar_app.
  change (countChar c EmptyString) with 0. lia.
Qed.

(** From here on the pieces of the templates are taken as wholes. *)
Opaque svgOpen svgClose indent1 indent2 indent3 backgroundRect barRect
  textElement optionalLine.

(** X9. The texts of the three lines add none of the characters [<],
    [>], double quote and single quote to the SVG of [renderKeyImage]:
    two calls with the same accent colour, whose first and third lines
    are present or absent alike, give SVGs with the same number of each
    of these characters, whatever the texts are. *)
Theorem keyImageSvg_texts_add_no_markup (o o' : KeyImageOptions) (c : ascii) :
  isRaw c = true ->
  accentColor o = accentColor o' ->
  truthy (line1 o) = truthy (line1 o') ->
  truthy (line3 o) = truthy (line3 o') ->
  countChar c (keyImageSvg o) = countChar c (keyImageSvg o').
Proof.
  intros Hc Hcol H1 H3. unfold keyImageSvg.
  rewrite !countChar_app.
  rewrite (countChar_textElement c "80" _ _ _ (escapeXml (truncate (line2 o) 12))),
    (countChar_textElement c "80" _ _ _ (escapeXml (truncate (line2 o') 12))).
  rewrite !countChar_optionalLine, !countChar_escaped by exact Hc.
  by rewrite Hcol, H1, H3.
Qed.

Lemma keyImageSvg_texts_add_no_markup_witness :
  countChar lt (keyImageSvg
                  (mkKeyImageOptions (Some "<b>") "</text><script>"
                                     None "#58a6ff")) =
  countChar lt (keyImageSvg
                  (mkKeyImageOptions (Some "Label") "Value" None "#58a6ff")).
Proof.
  apply (keyImageSvg_texts_add_no_markup
           (mkKeyImageOptions (Some "<b>") "</text><script>" None "#58a6ff")
           (mkKeyImageOptions (Some "Label") "Value" None "#58a6ff") lt);
    reflexivity.
Defined.

(** X10. The message adds none of the characters [<], [>], double quote
    and single quote to the SVG of [renderErrorImage]: every message
    gives an SVG with the same number of each of them. *)
Theorem errorImageSvg_message_adds_no_markup (message message' : string)
    (c : ascii) :
  isRaw c = true ->
  countChar c (errorImageSvg message) = countChar c (errorImageSvg message').
Proof.
  intros Hc. unfold errorImageSvg.
  rewrite !countChar_app.
  rewrite (countChar_textElement c "100" _ _ _ (escapeXml (truncate message 16))),
    (countChar_textElement c "100" _ _ _ (escapeXml (truncate message' 16))).
  by rewrite !countChar_escaped by exact Hc.
Qed.

Lemma errorImageSvg_message_adds_no_markup_witness :
  isRaw gt = true /\
  countChar gt (errorImageSvg "<html>502 Bad Gateway</html>") =
  countChar gt (errorImageSvg "Error").
Proof.
  split; [reflexivity|].
  apply (errorImageSvg_message_adds_no_markup
           "<html>502 Bad Gateway</html>" "Error" gt).
  reflexivity.
Defined.

(** X11. The accent colour is not escaped: [renderKeyImage] copies it
    into the [fill] attribute as it is, so that every character of it,
    quotes and angle brackets included, is in the SVG. *)
Theorem keyImageSvg_accent_is_raw (o : KeyImageOptions) (c : ascii) :
  countChar c (keyImageSvg o) =
  countChar c (keyImageSvg
                 (mkKeyImageOptions (line1 o) (line2 o) (line3 o) EmptyString))
  + countChar c (accentColor o).
Proof.
  unfold keyImageSvg. cbn [line1 line2 line3 accentColor].
  rewrite !countChar_app, (countChar_barRect c (accentColor o)). lia.
Qed.

End KeyImageFacts.

(* ===================================================================== *)
(** * Part VII: further properties of the example action *)
(* ===================================================================== *)

Module ActionMore.
Import Action Scenarios Calls Rendering ActionFacts.
Local Open Scope action_scope.

(** ** The refresh cycle *)

(** The cycle when every display update is accepted and the global
    settings are read. *)
Lemma refresh_read_resolved ev env h tr gs :
  (forall n c, displayOutcome env n c = Resolved tt) ->
  globalOutcome env (S (S (length tr))) = Resolved gs ->
  exec (refresh ev) env h tr =
  mkResult h (tr ++ cycleCalls ev (imageFor ev gs)) (Normal tt).
Proof.
  intros Hall Hread.
  unfold refresh, refreshBody, refreshRender, refreshCatch, imageFor. simpl.
  rewrite Hall. simpl. rewrite Hall. simpl.
  rewrite !length_app, !Nat.add_1_r. simpl. rewrite Hread. simpl.
  destruct (truthy (apiToken gs)); simpl;
    rewrite Hall; simpl; rewrite Hall; simpl;
    by rewrite <- !app_assoc.
Qed.

(** X12. A refresh cycle with a token, all of whose display updates are
    accepted and whose loading and data images the runtime encodes,
    issues exactly five calls: the loading image, the title reset, the
    read of the global settings, the data image with the resource as its
    third line, and the title reset; it returns normally and leaves the
    timers as they are. *)
Theorem successful_cycle rt ev env h tr gs :
  (forall n c, displayOutcome env n c = Resolved tt) ->
  globalOutcome env (S (S (length tr))) = Resolved gs ->
  truthy (apiToken gs) = true ->
  renderThrows rt renderLoadingImage = false ->
  renderThrows rt (dataImage (payloadSettings ev)) = false ->
  execR rt (refresh ev) env h tr =
  mkResult h (tr ++ cycleCalls ev (dataImage (payloadSettings ev))) (Normal tt).
Proof.
  intros Hall Hread Htoken Hload Hdata.
  unfold refresh, refreshBody, refreshRender, refreshCatch.
  repeat (count_calls; first [rewrite Hall | use_answer]).
  by rewrite <- !app_assoc.
Qed.

Lemma successful_cycle_witness :
  execR plainRuntime (refresh evX) envOk emptyHeap [] =
  mkResult emptyHeap (cycleCalls evX (dataImage settingsX)) (Normal tt).
Proof.
  apply (successful_cycle plainRuntime evX envOk emptyHeap [] withToken);
    [intros n c|..]; reflexivity.
Defined.

(** X13. Without an API token in the global settings (absent or empty),
    [onWillAppear] with a resource shows the error image [No Token],
    returns normally and still installs the timer of the key: polling
    goes on. *)
Theorem missing_token_shown ev env h tr gs :
  (forall n c, displayOutcome env n c = Resolved tt) ->
  globalOutcome env (S (S (length tr))) = Resolved gs ->
  truthy (apiToken gs) = false ->
  truthy (resource (payloadSettings ev)) = true ->
  let r := exec (onWillAppear ev) env h tr in
  completion r = Normal tt /\
  finalTrace r = tr ++ cycleCalls ev (renderErrorImage "No Token") /\
  lastImage (actionId ev) (finalTrace r) = Some (renderErrorImage "No Token") /\
  timers (finalHeap r) !! actionId ev = Some (nextTimer h) /\
  intervals (finalHeap r) !! nextTimer h = Some (mkInterval ev (periodOf ev)).
Proof.
  intros Hall Hread Htoken Hres. cbv zeta.
  unfold onWillAppear. rewrite Hres. cbn [negb].
  rewrite exec_cycle_then_timer.
  rewrite (refresh_read_resolved ev env h tr gs Hall Hread).
  unfold imageFor. rewrite Htoken.
  cbn [completion finalTrace]. rewrite exec_startTimer.
  cbn [completion finalTrace finalHeap timers intervals].
  rewrite !lookup_insert_eq.
  repeat split; try reflexivity.
  rewrite lastImage_app. simpl. by rewrite String.eqb_refl.
Qed.

Lemma missing_token_shown_witness :
  let env := mkEnv (fun _ _ => Resolved tt)
                   (fun _ => Resolved (mkGlobalSettings None ∅)) in
  let r := exec (onWillAppear evX) env emptyHeap [] in
  completion r = Normal tt /\
  lastImage "btn1" (finalTrace r) = Some (renderErrorImage "No Token") /\
  timers (finalHeap r) !! "btn1" = Some 1%positive.
Proof.
  cbv zeta.
  destruct (missing_token_shown evX
              (mkEnv (fun _ _ => Resolved tt)
                     (fun _ => Resolved (mkGlobalSettings None ∅)))
              emptyHeap [] (mkGlobalSettings None ∅))
    as (Hc & _ & Hl & Ht & _); try reflexivity.
  repeat split; assumption.
Defined.

(** X14. When the data cannot be shown, because [renderKeyImage] throws
    or because the host rejects the display update, the cycle catches the
    failure and the last image it sends is the error image with the
    message of the failure, provided the runtime encodes that image. *)
Theorem rejected_data_image_shows_error rt ev env h tr gs e :
  renderThrows rt renderLoadingImage = false ->
  displayOutcome env (length tr) (SetImage (actionId ev) renderLoadingImage)
    = Resolved tt ->
  displayOutcome env (S (length tr)) (SetTitle (actionId ev) EmptyString)
    = Resolved tt ->
  globalOutcome env (S (S (length tr))) = Resolved gs ->
  truthy (apiToken gs) = true ->
  (if renderThrows rt (dataImage (payloadSettings ev))
   then e = uriError rt
   else displayOutcome env (S (S (S (length tr))))
          (SetImage (actionId ev) (dataImage (payloadSettings ev)))
        = Rejected e) ->
  renderThrows rt (renderErrorImage (errorMessage e)) = false ->
  lastImage (actionId ev) (finalTrace (execR rt (refresh ev) env h tr)) =
    Some (renderErrorImage (errorMessage e)).
Proof.
  intros Hrender Hload Htitle Hread Htoken Hdata Herror.
  unfold refresh, refreshBody, refreshRender, refreshCatch.
  destruct (renderThrows rt (dataImage (payloadSettings ev))) eqn:Hkey;
    [subst e; cbn [uriError errorMessage] in Herror|];
    split_rendered; flatten_trace; rewrite lastImage_app; simpl;
    rewrite String.eqb_refl; reflexivity.
Qed.

(** The host rejects the data image; and the runtime cannot encode it. *)
Lemma rejected_data_image_shows_error_witness :
  let env := mkEnv (fun n _ => if Nat.eqb n 3
                               then Rejected (ErrorObject "socket closed")
                               else Resolved tt)
                   (fun _ => Resolved withToken) in
  lastImage "btn1"
    (finalTrace (execR plainRuntime (refresh evX) env emptyHeap [])) =
    Some (renderErrorImage "socket closed") /\
  lastImage "btn1"
    (finalTrace (execR (runtimeRefusing (dataImage settingsX)) (refresh evX)
                       envOk emptyHeap [])) =
    Some (renderErrorImage "URI malformed").
Proof.
  cbv zeta. split.
  - apply (rejected_data_image_shows_error plainRuntime evX
             (mkEnv (fun n _ => if Nat.eqb n 3
                                then Rejected (ErrorObject "socket closed")
                                else Resolved tt)
                    (fun _ => Resolved withToken))
             emptyHeap [] withToken (ErrorObject "socket closed"));
      reflexivity.
  - apply (rejected_data_image_shows_error (runtimeRefusing (dataImage settingsX))
             evX envOk emptyHeap [] withToken (ErrorObject "URI malformed"));
      vm_compute; reflexivity.
Defined.

(** ** [onKeyDown] *)

(** X15. [onKeyDown] never touches the timers: the heap is the same
    before and after. With a resource it runs exactly one refresh cycle;
    without one it issues no call and returns normally. *)
Theorem onKeyDown_leaves_timers ev env h tr :
  let r := exec (onKeyDown ev) env h tr in
  finalHeap r = h /\
  refreshCount (actionId ev) (finalTrace r) =
    (if truthy (resource (payloadSettings ev))
     then S (refreshCount (actionId ev) tr)
     else refreshCount (actionId ev) tr) /\
  (truthy (resource (payloadSettings ev)) = false ->
   finalTrace r = tr /\ completion r = Normal tt).
Proof.
  cbv zeta. unfold onKeyDown.
  destruct (truthy (resource (payloadSettings ev))); cbn [negb].
  - split; [apply refresh_heap|]. split; [apply refresh_count|discriminate].
  - repeat split; reflexivity.
Qed.

Lemma onKeyDown_leaves_timers_witness :
  let r0 := exec (onWillAppear evX) envOk emptyHeap [] in
  finalHeap (exec (onKeyDown evX) envOk (finalHeap r0) (finalTrace r0)) =
    finalHeap r0 /\
  finalTrace (exec (onKeyDown evNone) envOk emptyHeap []) = [].
Proof.
  cbv zeta. split.
  - apply (onKeyDown_leaves_timers evX envOk).
  - apply (onKeyDown_leaves_timers evNone envOk emptyHeap []). reflexivity.
Defined.

(** ** One key at a time *)

Lemma refresh_own_calls ev env h tr :
  exists calls,
    finalTrace (exec (refresh ev) env h tr) = tr ++ calls /\
    forallb (ownCall (actionId ev)) calls = true.
Proof.
  unfold refresh, refreshBody, refreshRender, refreshCatch.
  split_outcomes; flatten_trace;
    (eexists; split; [reflexivity|]); simpl;
    rewrite !String.eqb_refl; reflexivity.
Qed.

(** X16. Whatever the host answers, the calls a handler issues concern
    the key of its event only: every image and every title goes to that
    key, and a title is never anything but the empty one. *)
Theorem handlers_address_own_key (e : HostEvent) env h tr :
  exists calls,
    finalTrace (exec (dispatch e) env h tr) = tr ++ calls /\
    forallb (ownCall (actionId (eventOf e))) calls = true.
Proof.
  assert (Hcycle : forall ev h0, exists calls,
    finalTrace (exec (refresh ev ;;; startTimer ev) env h0 tr) = tr ++ calls /\
    forallb (ownCall (actionId ev)) calls = true).
  { intros ev h0. rewrite exec_cycle_then_timer.
    destruct (refresh_own_calls ev env h0 tr) as (calls & Htr & Hown).
    exists calls. split; [|exact Hown].
    destruct (completion (exec (refresh ev) env h0 tr)); [|exact Htr].
    by rewrite exec_startTimer. }
  destruct e as [ev|ev|ev|ev]; cbn [dispatch eventOf].
  - unfold onWillAppear.
    destruct (truthy (resource (payloadSettings ev))); cbn [negb].
    + apply Hcycle.
    + split_outcomes; flatten_trace;
        (eexists; split; [reflexivity|]); simpl;
        rewrite !String.eqb_refl; reflexivity.
  - rewrite exec_onWillDisappear. exists []. by rewrite app_nil_r.
  - unfold onKeyDown.
    destruct (truthy (resource (payloadSettings ev))); cbn [negb].
    + apply refresh_own_calls.
    + exists []. by rewrite app_nil_r.
  - unfold onDidReceiveSettings. rewrite exec_clear_existing. cbv zeta.
    destruct (truthy (resource (payloadSettings ev))); cbn [negb].
    + apply Hcycle.
    + split_outcomes; flatten_trace;
        (eexists; split; [reflexivity|]); simpl;
        rewrite !String.eqb_refl; reflexivity.
Qed.

(** The heap a handler leaves, for the keys and handles that are not
    its own. *)
Lemma handler_frame (e : HostEvent) env h tr :
  let h' := finalHeap (exec (dispatch e) env h tr) in
  (forall id, id <> actionId (eventOf e) -> timers h' !! id = timers h !! id) /\
  (forall t, timers h !! actionId (eventOf e) <> Some t -> t <> nextTimer h ->
     intervals h' !! t = intervals h !! t).
Proof.
  cbv zeta.
  assert (Hstart : forall ev h0 tr0,
    (forall id, id <> actionId ev ->
       timers (finalHeap (exec (startTimer ev) env h0 tr0)) !! id
         = timers h0 !! id) /\
    (forall t, t <> nextTimer h0 ->
       intervals (finalHeap (exec (startTimer ev) env h0 tr0)) !! t
         = intervals h0 !! t)).
  { intros ev h0 tr0. rewrite exec_startTimer. simpl. split.
    - intros id Hid. by rewrite lookup_insert_ne.
    - intros t Ht. by rewrite lookup_insert_ne. }
  assert (Hclear : forall id t,
    timers h !! id <> Some t ->
    match timers h !! id with
    | Some t0 => delete t0 (intervals h)
    | None => intervals h
    end !! t = intervals h !! t).
  { intros id t Ht. destruct (timers h !! id) as [t0|]; [|reflexivity].
    rewrite lookup_delete_ne; [reflexivity|congruence]. }
  destruct e as [ev|ev|ev|ev]; cbn [dispatch eventOf].
  - unfold onWillAppear.
    destruct (truthy (resource (payloadSettings ev))) eqn:Hres; cbn [negb].
    + rewrite exec_cycle_then_timer.
      destruct (completion (exec (refresh ev) env h tr)); [|by split].
      destruct (Hstart ev h (finalTrace (exec (refresh ev) env h tr)))
        as [Ht Hi].
      split; [exact Ht|]. intros t _ Hne. by apply Hi.
    + destruct (onWillAppear_unconfigured ev env h tr Hres) as [Hh _].
      unfold onWillAppear in Hh. rewrite Hres in Hh. cbn [negb] in Hh.
      rewrite Hh. by split.
  - rewrite exec_onWillDisappear. simpl. split.
    + intros id Hid. by rewrite lookup_delete_ne.
    + intros t Ht _. by apply Hclear.
  - unfold onKeyDown.
    destruct (truthy (resource (payloadSettings ev))); cbn [negb];
      [rewrite refresh_heap|]; by split.
  - destruct (truthy (resource (payloadSettings ev))) eqn:Hres.
    + rewrite exec_onDidReceiveSettings_configured by exact Hres. cbv zeta.
      destruct (completion (exec (refresh ev) env h tr)).
      * match goal with
        | |- context [exec (startTimer ev) env ?h0 ?tr0] =>
            destruct (Hstart ev h0 tr0) as [Ht Hi]
        end.
        split.
        -- intros id Hid. rewrite Ht by exact Hid.
           by destruct (timers h !! actionId ev).
        -- intros t Hown Hne. rewrite Hi.
           ++ pose proof (Hclear (actionId ev) t Hown) as Hc.
              by destruct (timers h !! actionId ev).
           ++ by destruct (timers h !! actionId ev).
      * simpl. split.
        -- intros id _. by destruct (timers h !! actionId ev).
        -- intros t Hown _. pose proof (Hclear (actionId ev) t Hown) as Hc.
           by destruct (timers h !! actionId ev).
    + destruct (exec_onDidReceiveSettings_unconfigured ev env h tr Hres)
        as (Hi & _ & Ht & _).
      split.
      * intros id Hid. destruct Ht as [-> | ->];
          [reflexivity|by rewrite lookup_delete_ne].
      * intros t Hown _. rewrite Hi. by apply Hclear.
Qed.

(** X17. A handler for one key leaves the other keys alone: the table
    entry of any other key is unchanged, and an active interval is
    unchanged unless it is the one the table holds for the key of the
    event (or has the handle that [setInterval] gives next). *)
Theorem other_keys_untouched (e : HostEvent) env h tr id t :
  id <> actionId (eventOf e) ->
  timers h !! actionId (eventOf e) <> Some t ->
  t <> nextTimer h ->
  let h' := finalHeap (exec (dispatch e) env h tr) in
  timers h' !! id = timers h !! id /\
  intervals h' !! t = intervals h !! t.
Proof.
  intros Hid Hown Hnext. cbv zeta.
  destruct (handler_frame e env h tr) as [Ht Hi].
  split; [by apply Ht | by apply Hi].
Qed.

Lemma other_keys_untouched_witness :
  let evOther := mkEvent "btn2" settingsY in
  let r0 := exec (onWillAppear evX) envOk emptyHeap [] in
  let h' := finalHeap (exec (onDidReceiveSettings evOther) envOk
                            (finalHeap r0) (finalTrace r0)) in
  timers h' !! "btn1" = Some 1%positive /\
  intervals h' !! 1%positive = Some (mkInterval evX 60000).
Proof.
  cbv zeta.
  destruct (other_keys_untouched
              (DidReceiveSettings (mkEvent "btn2" settingsY)) envOk
              (finalHeap (exec (onWillAppear evX) envOk emptyHeap []))
              (finalTrace (exec (onWillAppear evX) envOk emptyHeap []))
              "btn1" 1%positive) as [Ht Hi]; try discriminate.
  split; [exact Ht | exact Hi].
Defined.

(** ** The life of a timer *)

(** X18. When the key has no entry in the table and the next handle is
    free, [onWillAppear] followed by [onWillDisappear] leaves the table
    and the active intervals as they were, whatever the settings are and
    whatever the host answers. *)
Theorem appear_disappear_round_trip ev env h tr :
  timers h !! actionId ev = None ->
  intervals h !! nextTimer h = None ->
  let h2 := (execAll [WillAppear ev; WillDisappear ev] env h tr).1 in
  timers h2 = timers h /\ intervals h2 = intervals h.
Proof.
  intros Hnone Hfree. cbv zeta. cbn [execAll dispatch fst].
  rewrite exec_onWillDisappear. cbn [finalHeap timers intervals].
  unfold onWillAppear.
  destruct (truthy (resource (payloadSettings ev))) eqn:Hres; cbn [negb].
  - rewrite exec_cycle_then_timer.
    destruct (completion (exec (refresh ev) env h tr)).
    + rewrite exec_startTimer. cbn [finalHeap timers intervals].
      rewrite lookup_insert_eq.
      by rewrite !delete_insert_id.
    + cbn [finalHeap]. rewrite Hnone. by rewrite delete_id.
  - destruct (onWillAppear_unconfigured ev env h tr Hres) as [Hh _].
    unfold onWillAppear in Hh. rewrite Hres in Hh. cbn [negb] in Hh.
    rewrite Hh, Hnone. by rewrite delete_id.
Qed.

Lemma appear_disappear_round_trip_witness :
  let h2 := (execAll [WillAppear evX; WillDisappear evX] envOk emptyHeap []).1 in
  timers h2 = timers emptyHeap /\ intervals h2 = intervals emptyHeap.
Proof.
  apply (appear_disappear_round_trip evX envOk emptyHeap []); reflexivity.
Defined.

(** X19. When every active interval is in the table, [onWillDisappear]
    leaves the key with no entry and no active timer: no callback of the
    key can fire afterwards. *)
Theorem onWillDisappear_stops_timer ev env h tr :
  tracked h ->
  let h' := finalHeap (exec (onWillDisappear ev) env h tr) in
  timers h' !! actionId ev = None /\
  activeTimers (actionId ev) h' = [] /\
  (forall t, timers h !! actionId ev = Some t -> intervals h' !! t = None).
Proof.
  intros Htr. cbv zeta. rewrite exec_onWillDisappear.
  cbn [finalHeap timers intervals].
  split; [apply lookup_delete_eq|]. split.
  - apply activeTimers_nil. cbn [intervals]. intros t itv Hin.
    by destruct (tracked_clear (actionId ev) h Htr _ _ Hin).
  - intros t ->. apply lookup_delete_eq.
Qed.

Lemma onWillDisappear_stops_timer_witness :
  let r0 := exec (onWillAppear evX) envOk emptyHeap [] in
  let h' := finalHeap (exec (onWillDisappear evX) envOk (finalHeap r0)
                            (finalTrace r0)) in
  activeTimers "btn1" (finalHeap r0) = [1%positive] /\
  activeTimers "btn1" h' = [].
Proof.
  cbv zeta. split; [reflexivity|].
  apply (onWillDisappear_stops_timer evX envOk
           (finalHeap (exec (onWillAppear evX) envOk emptyHeap []))
           (finalTrace (exec (onWillAppear evX) envOk emptyHeap []))).
  apply (tracked_preserved (WillAppear evX) envOk emptyHeap []);
    [exact tracked_empty | reflexivity].
Defined.





(** ** Timer callbacks and handlers in flight *)









End ActionMore.
